(** * File-to-database loader (src/app.py): a shallow embedding

    The loader reads a JSON schema catalog, resolves the column order of a
    dataset, streams every [part-*] file of the dataset in chunks and
    appends each chunk to the table [<dataset>_test].

    Python values are embedded as follows.
    - A schema catalog (the [dict] returned by [json.load]) is an
      association list: a Python dict iterates in insertion order.
    - A column descriptor is a finite map from field names to values.
    - Exceptions are values of the type [exn]; a computation returns
      [Ok v] or [Raise e].
    - A source file is the list of the data lines that the parsing
      library finds in it; a frame keeps the fields of its rows, and its
      values have the column types that the library infers per chunk.
    - The logger is a list of entries, the database a finite map from
      table names to the rows appended so far. *)

From Stdlib Require Import ZArith Ascii String List Sorted Permutation.
From stdpp Require Import gmap strings list sorting.

Open Scope string_scope.
Open Scope Z_scope.

(** ** Values and exceptions *)

(** The values a descriptor field holds in a catalog: JSON integers and
    JSON strings. *)
Inductive pyval :=
| VInt (z : Z)
| VStr (s : string).

#[global] Instance pyval_eq_dec : EqDecision pyval.
Proof. solve_decision. Defined.

(** The exception classes that occur in the program.  [OtherError] stands
    for any further subclass of [Exception] raised by the file system or
    by the database driver (PermissionError, UnicodeDecodeError,
    OperationalError, ...). *)
Inductive exn :=
| KeyError (key : string)
| TypeError
| ValueError (msg : string)
| FileNotFoundError (path : string)
| ParserError
| DatabaseError
| JSONDecodeError
| OtherError (name : string)
| GenericException.

#[global] Instance exn_eq_dec : EqDecision exn.
Proof. solve_decision. Defined.

Inductive result (A : Type) :=
| Ok (a : A)
| Raise (e : exn).
Arguments Ok {A} a.
Arguments Raise {A} e.

Definition rbind {A B} (r : result A) (k : A -> result B) : result B :=
  match r with
  | Ok a => k a
  | Raise e => Raise e
  end.

Fixpoint rmap {A B} (f : A -> result B) (l : list A) : result (list B) :=
  match l with
  | [] => Ok []
  | x :: l' =>
      rbind (f x) (fun y => rbind (rmap f l') (fun ys => Ok (y :: ys)))
  end.

(** ** The schema catalog *)

Abbreviation descriptor := (gmap string pyval).
Definition catalog := list (string * list descriptor).

(** [d[k]] on a dict: the value, or [KeyError k]. *)
Definition getitem (d : descriptor) (k : string) : result pyval :=
  match d !! k with
  | Some v => Ok v
  | None => Raise (KeyError k)
  end.

(** [schemas[ds_name]]. *)
Fixpoint schemas_getitem (schemas : catalog) (ds_name : string)
  : result (list descriptor) :=
  match schemas with
  | [] => Raise (KeyError ds_name)
  | (k, v) :: rest =>
      if String.eqb k ds_name then Ok v else schemas_getitem rest ds_name
  end.

(** [list(schemas.keys())]. *)
Definition keys (schemas : catalog) : list string := map fst schemas.

(** ** Sorting

    [a < b] on values: integers and strings are ordered among
    themselves; comparing an integer with a string raises TypeError. *)
Definition py_lt (a b : pyval) : result bool :=
  match a, b with
  | VInt x, VInt y => Ok (x <? y)
  | VStr s, VStr t => Ok (String.ltb s t)
  | _, _ => Raise TypeError
  end.

(** [sorted(l, key=...)] is stable and compares keys with [<] only.  The
    keys are computed beforehand; the list of (key, item) pairs is sorted
    by insertion from the right, an item moving past the items whose key
    is strictly smaller. *)
Fixpoint insert_keyed {A} (x : pyval * A) (l : list (pyval * A))
  : result (list (pyval * A)) :=
  match l with
  | [] => Ok [x]
  | y :: l' =>
      rbind (py_lt (fst y) (fst x)) (fun smaller =>
        if smaller
        then rbind (insert_keyed x l') (fun r => Ok (y :: r))
        else Ok (x :: y :: l'))
  end.

Fixpoint sort_keyed {A} (l : list (pyval * A)) : result (list (pyval * A)) :=
  match l with
  | [] => Ok []
  | x :: l' => rbind (sort_keyed l') (insert_keyed x)
  end.

Definition sorted {A} (l : list A) (key : A -> result pyval)
  : result (list A) :=
  rbind (rmap (fun x => rbind (key x) (fun k => Ok (k, x))) l) (fun keyed =>
  rbind (sort_keyed keyed) (fun s => Ok (map snd s))).

(** ** The dataset selector

    The argument [ds_names] of [main]: [None], a string or a list of
    strings. *)
Inductive selector :=
| SelNone
| SelStr (s : string)
| SelList (l : list string).

#[global] Instance selector_eq_dec : EqDecision selector.
Proof. solve_decision. Defined.

(** ** Logging

    Messages are kept as structured events with the arguments of their
    format strings; the values that the environment of the run fixes (the
    base directory, the path of the schema file) are left out.  The
    logger's level is INFO, so DEBUG records are dropped. *)
Inductive level := DEBUG | INFO | ERROR | CRITICAL.

#[global] Instance level_eq_dec : EqDecision level.
Proof. solve_decision. Defined.

Inductive event :=
| EvSchemaLoaded
| EvSchemaUnparsable
| EvSchemaAbsent
| EvLoadingAll (names : list string)
| EvLoadingSpecified (ds_names : selector)
| EvSearching (ds : string)
| EvNoFiles (ds : string)
| EvFileStart (file ds : string)
| EvChunkStart (idx : nat) (nrows : nat) (ds file : string)
| EvChunkDone (idx : nat) (ds : string)
| EvChunkFailed (idx : nat) (ds file : string) (e : exn)
| EvFinished (ds : string)
| EvFileNotFound (path : string)
| EvUnparsable (path : string)
| EvUnhandledRead (path : string) (e : exn)
| EvDbError (table : string) (e : exn)
| EvMalformedSchema (ds key : string) (e : exn).

#[global] Instance event_eq_dec : EqDecision event.
Proof. solve_decision. Defined.

Definition entry := (level * event)%type.

Definition enabled (l : level) : bool :=
  match l with DEBUG => false | _ => true end.

Definition record_of (l : level) (ev : event) : list entry :=
  if enabled l then [(l, ev)] else [].

(** ** Column Resolver: [get_column_names] *)

Definition column_position : string := "column_position".
Definition column_name : string := "column_name".

(** The body of the [try] block. *)
Definition get_column_names_try (schemas : catalog) (ds_name sorting_key : string)
  : result (list pyval) :=
  rbind (schemas_getitem schemas ds_name) (fun descs =>
  rbind (sorted descs (fun x => getitem x sorting_key)) (fun sorted_schema =>
  rmap (fun col_detail => getitem col_detail column_name) sorted_schema)).

(** The whole function: a KeyError is logged and raised again; the
    result comes with the records written to the log. *)
Definition get_column_names (schemas : catalog) (ds_name sorting_key : string)
  : list entry * result (list pyval) :=
  match get_column_names_try schemas ds_name sorting_key with
  | Raise (KeyError k) =>
      (record_of ERROR (EvMalformedSchema ds_name sorting_key (KeyError k)),
       Raise (KeyError k))
  | r => ([], r)
  end.

Definition mk_descriptor (name : string) (pos : Z) : descriptor :=
  <[column_name := VStr name]> (<[column_position := VInt pos]> ∅).

(** ** The environment of a run

    Everything the program reads but does not change: the process
    environment, the schema file, the directory listings, the source
    files, and the database's decision, per write attempt, to reject the
    write.

    Splitting a line into fields, quoting, the skipping of blank lines
    and the treatment of lines with too few or too many fields are the
    parsing library's business, not the program's.  A source file is
    therefore given by the data lines the library finds in it, in file
    order: a line is either split into its fields, one per column name,
    or it is a line at which the library gives up with an exception
    (ParserError for a line it cannot tokenize, a decoding or I/O error
    otherwise). *)

Inductive data_line :=
| Row (fields : list string)
| Bad (e : exn).

Inductive source :=
| Unreadable (e : exn)
| Text (lines : list data_line).

Record env := {
  e_environ : gmap string string;
  (** schema path -> parsed content; [Some None] is a file that is not
      JSON, no entry is no file *)
  e_schemas : gmap string (option catalog);
  (** glob pattern -> matching paths, in listing order *)
  e_glob : gmap string (list string);
  (** path -> content; no entry is a path that cannot be opened because
      it does not exist (a dangling link listed by glob) *)
  e_files : gmap string source;
  (** number of the write attempt -> the exception the database raises *)
  e_faults : gmap nat exn;
}.

(** ** Tabular chunks *)

(** A frame has its column labels and, row by row, the fields it was
    read from.  The values of the frame are typed: see [dtypes] and
    [values] below. *)
Record dataframe := {
  df_columns : list pyval;
  df_rows : list (list string);
}.

Definition shape0 (df : dataframe) : nat := length (df_rows df).

(** *** Column types

    Line 127 passes no [dtype], so the library infers a type for each
    column from the fields the column has in the chunk at hand.  The
    model commits to two cases.  A column all of whose fields are plain
    integer literals (an optional minus sign and at most 18 digits
    without a leading zero) is an integer column.  In a column that is
    not, a field made of lower-case letters only, other than the words
    the library reads as a missing value, a boolean or a float, is the
    string it spells.  Every other value (floats, booleans, missing
    values, text next to numbers, ...) is left undetermined: [COther]
    keeps the field without saying which value the library makes of
    it. *)
Inductive cell :=
| CInt (z : Z)
| CStr (s : string)
| COther (field : string).

#[global] Instance cell_eq_dec : EqDecision cell.
Proof. solve_decision. Defined.

Definition is_digit (c : ascii) : bool :=
  (48 <=? nat_of_ascii c)%nat && (nat_of_ascii c <=? 57)%nat.

Definition is_lower (c : ascii) : bool :=
  (97 <=? nat_of_ascii c)%nat && (nat_of_ascii c <=? 122)%nat.

Fixpoint all_chars (p : ascii -> bool) (s : string) : bool :=
  match s with
  | EmptyString => true
  | String c s' => p c && all_chars p s'
  end.

Fixpoint digits_value (acc : Z) (s : string) : Z :=
  match s with
  | EmptyString => acc
  | String c s' =>
      digits_value (10 * acc + Z.of_nat (nat_of_ascii c - 48)) s'
  end.

(** A natural number in decimal notation, without a leading zero and
    short enough to fit a 64-bit integer. *)
Definition is_natural (s : string) : bool :=
  match s with
  | EmptyString => false
  | String c s' =>
      all_chars is_digit s
      && (String.length s <=? 18)%nat
      && (negb (Ascii.eqb c "0") || String.eqb s' "")
  end.

Definition int_literal (s : string) : option Z :=
  match s with
  | EmptyString => None
  | String c s' =>
      if Ascii.eqb c "-"
      then if is_natural s' && negb (String.eqb s' "0")
           then Some (- digits_value 0 s') else None
      else if is_natural s then Some (digits_value 0 s) else None
  end.

(** Words the library does not keep as text. *)
Definition reserved_words : list string :=
  ["nan"; "null"; "inf"; "infinity"; "true"; "false"].

Definition is_word (s : string) : bool :=
  negb (String.eqb s "") && all_chars is_lower s
  && negb (existsb (String.eqb s) reserved_words).

(** The type of a column: integer, text, or undetermined. *)
Inductive kind := KInt | KStr | KOther.

#[global] Instance kind_eq_dec : EqDecision kind.
Proof. solve_decision. Defined.

(** The kind of a field on its own. *)
Definition kind_of (f : string) : kind :=
  match int_literal f with
  | Some _ => KInt
  | None => if is_word f then KStr else KOther
  end.

(** The type inferred for a column from its fields. *)
Definition column_kind (fs : list string) : kind :=
  if forallb (fun f => bool_decide (kind_of f = KInt)) fs then KInt
  else if existsb is_word fs then KStr
  else KOther.

(** The value of a field in a column of a given type. *)
Definition cell_in (k : kind) (f : string) : cell :=
  match k with
  | KInt => match int_literal f with
            | Some z => CInt z
            | None => COther f
            end
  | KStr => if is_word f then CStr f else COther f
  | KOther => COther f
  end.

(** The value of a field that is alone in its column. *)
Definition cell_of (f : string) : cell := cell_in (kind_of f) f.

Definition column (j : nat) (rows : list (list string)) : list string :=
  map (fun r => nth j r "") rows.

(** [df.dtypes] and the rows of [df.values]. *)
Definition dtypes (df : dataframe) : list kind :=
  map (fun j => column_kind (column j (df_rows df)))
      (seq 0 (length (df_columns df))).

Definition values (df : dataframe) : list (list cell) :=
  map (fun r => zip_with cell_in (dtypes df) r) (df_rows df).

(** ** The parsing library: [pd.read_csv(path, names=..., chunksize=...)]

    What is modelled of the library: the names must be pairwise
    distinct and the chunk size at least 1 (ValueError otherwise); the
    file is opened when the reader is created, before any chunk is read;
    a read takes up to [chunksize] data lines and raises the exception of
    the first of them at which the library gives up. *)

Definition read_line (l : data_line) : result (list string) :=
  match l with
  | Row fields => Ok fields
  | Bad e => Raise e
  end.

(** The reader object: the column names, the chunk size and the lines
    not yet consumed. *)
Record text_file_reader := {
  r_names : list pyval;
  r_chunksize : nat;
  r_pending : list data_line;
}.

Definition pd_read_csv (E : env) (csv_path : string) (names : list pyval)
    (chunksize : Z) : result text_file_reader :=
  if chunksize <? 1 then Raise (ValueError "'chunksize' must be an integer >=1")
  else if negb (bool_decide (NoDup names))
  then Raise (ValueError "Duplicate names are not allowed.")
  else match e_files E !! csv_path with
       | None => Raise (FileNotFoundError csv_path)
       | Some (Unreadable e) => Raise e
       | Some (Text lines) =>
           Ok {| r_names := names; r_chunksize := Z.to_nat chunksize;
                 r_pending := lines |}
       end.

(** One [next()] on the reader: [None] is StopIteration.  A read takes
    up to [chunksize] lines.  A read at the end of the input stops the
    iteration, except the very first one: with the names given, a file
    without data rows is no error for the library, and its first read
    returns the frame with these columns and no row. *)
Definition next_chunk (first : bool) (r : text_file_reader)
  : result (option (dataframe * text_file_reader)) :=
  match r_pending r with
  | [] =>
      if first
      then Ok (Some ({| df_columns := r_names r; df_rows := [] |}, r))
      else Ok None
  | _ =>
      rbind (rmap read_line (take (r_chunksize r) (r_pending r))) (fun rows =>
      Ok (Some ({| df_columns := r_names r; df_rows := rows |},
                {| r_names := r_names r; r_chunksize := r_chunksize r;
                   r_pending := drop (r_chunksize r) (r_pending r) |})))
  end.

(** ** Chunked File Reader: [read_csv]

    A generator is the sequence of its yields, ended by a return or by an
    exception together with the records logged by the handler that raised
    it.  Nothing the consumer does between two yields changes what the
    generator reads. *)
Inductive gen :=
| GYield (idx : nat) (df : dataframe) (rest : gen)
| GReturn
| GRaise (logs : list entry) (e : exn).

(** The three [except] clauses of [read_csv]. *)
Definition read_csv_except (csv_path : string) (e : exn) : gen :=
  match e with
  | FileNotFoundError _ =>
      GRaise (record_of ERROR (EvFileNotFound csv_path))
             (FileNotFoundError csv_path)
  | ParserError =>
      GRaise (record_of ERROR (EvUnparsable csv_path)) ParserError
  | _ =>
      GRaise (record_of CRITICAL (EvUnhandledRead csv_path e))
             GenericException
  end.

(** [for idx, df in enumerate(df_reader): yield idx, df].  The fuel bounds
    the number of reads; [2 + length pending] reads always suffice. *)
Fixpoint enumerate_reader (fuel : nat) (csv_path : string) (first : bool)
    (idx : nat) (r : text_file_reader) : gen :=
  match fuel with
  | O => GReturn
  | S fuel' =>
      match next_chunk first r with
      | Raise e => read_csv_except csv_path e
      | Ok None => GReturn
      | Ok (Some (df, r')) =>
          GYield idx df (enumerate_reader fuel' csv_path false (S idx) r')
      end
  end.

Definition prepend_logs (logs : list entry) (g : gen) : gen :=
  match g with
  | GRaise logs' e => GRaise (logs ++ logs') e
  | g => g
  end.

(** The resolver runs inside the [try] block, at the first [next()].  The
    record of line 126 is at DEBUG, below the logger's level, and leaves
    no trace. *)
Definition read_csv (E : env) (csv_path : string) (schema : catalog)
    (ds_name : string) (chunksize : Z) : gen :=
  let '(logs, names) := get_column_names schema ds_name column_position in
  match names with
  | Raise e => prepend_logs logs (read_csv_except csv_path e)
  | Ok col_name =>
      match pd_read_csv E csv_path col_name chunksize with
      | Raise e => read_csv_except csv_path e
      | Ok df_reader =>
          enumerate_reader (2 + length (r_pending df_reader)) csv_path true 0%nat
                           df_reader
      end
  end.

(** ** The state of a run: database and log *)

(** A database row: the values of a frame row under the frame's column
    labels. *)
Definition dbrow := list (pyval * cell).

Record world := {
  w_tables : gmap string (list dbrow);
  w_writes : nat;
  w_log : list entry;
}.

Definition table (w : world) (name : string) : list dbrow :=
  default [] (w_tables w !! name).

(** Stateful code: a state transformer returning a value or raising. *)
Definition M (A : Type) := world -> result A * world.

Definition ret {A} (a : A) : M A := fun w => (Ok a, w).
Definition raise {A} (e : exn) : M A := fun w => (Raise e, w).
Definition bind {A B} (m : M A) (k : A -> M B) : M B :=
  fun w => match m w with
           | (Ok a, w') => k a w'
           | (Raise e, w') => (Raise e, w')
           end.
Definition try_except {A} (m : M A) (handler : exn -> M A) : M A :=
  fun w => match m w with
           | (Ok a, w') => (Ok a, w')
           | (Raise e, w') => handler e w'
           end.

Notation "'letM' x := m 'in' k" := (bind m (fun x => k))
  (at level 10, x name, m at level 100, k at level 200).
Notation "m ;;; k" := (bind m (fun _ => k))
  (at level 100, right associativity).

Definition emit (logs : list entry) : M unit :=
  fun w => (Ok tt, {| w_tables := w_tables w; w_writes := w_writes w;
                      w_log := w_log w ++ logs |}).

Definition logger (l : level) (ev : event) : M unit := emit (record_of l ev).

Fixpoint for_each {A} (l : list A) (body : A -> M unit) : M unit :=
  match l with
  | [] => ret tt
  | x :: l' => body x ;;; for_each l' body
  end.

(** [for idx, df in g: body]: an exception of the generator is raised by
    the [for] statement itself, outside the loop body. *)
Fixpoint for_gen (g : gen) (body : nat -> dataframe -> M unit) : M unit :=
  match g with
  | GReturn => ret tt
  | GRaise logs e => emit logs ;;; raise e
  | GYield idx df rest => body idx df ;;; for_gen rest body
  end.

(** ** Table Writer: [to_sql] *)

(** The rows a frame sends to the database. *)
Definition rows_of (df : dataframe) : list dbrow :=
  map (fun cells => zip (df_columns df) cells) (values df).

(** [df.to_sql(name, con, if_exists="append", index=False)]: the database
    either rejects the whole write or appends the rows of the frame to
    the table, created empty when it does not exist. *)
Definition df_to_sql (E : env) (name : string) (df : dataframe) : M unit :=
  fun w =>
    let n := w_writes w in
    match e_faults E !! n with
    | Some e =>
        (Raise e, {| w_tables := w_tables w; w_writes := S n;
                     w_log := w_log w |})
    | None =>
        (Ok tt, {| w_tables := <[name := (table w name ++ rows_of df)%list]> (w_tables w);
                   w_writes := S n; w_log := w_log w |})
    end.

Definition to_sql (E : env) (ds_name : string) (df : dataframe)
    (conn_url : string) : M bool :=
  try_except
    (df_to_sql E ds_name df ;;; ret true)
    (fun e => match e with
              | DatabaseError =>
                  logger ERROR (EvDbError ds_name e) ;;; raise DatabaseError
              | _ => raise e
              end).

(** ** Dataset Loader: [db_loader] *)

Definition glob (E : env) (pattern : string) : list string :=
  default [] (e_glob E !! pattern).

(** Lines 98-104: the body of the inner loop, with its handler. *)
Definition load_chunk (E : env) (conn_url ds_name file : string) (idx : nat)
    (df : dataframe) : M unit :=
  try_except
    (logger INFO (EvChunkStart idx (shape0 df) ds_name file) ;;;
     letM ok := to_sql E (ds_name ++ "_test") df conn_url in
     if ok then logger INFO (EvChunkDone idx ds_name) else ret tt)
    (fun e => logger ERROR (EvChunkFailed idx ds_name file e)).

(** Lines 96-104: the body of the outer loop. *)
Definition load_file (E : env) (schemas : catalog) (conn_url ds_name : string)
    (chunksize : Z) (file : string) : M unit :=
  logger INFO (EvFileStart file ds_name) ;;;
  for_gen (read_csv E file schemas ds_name chunksize)
          (load_chunk E conn_url ds_name file).

Definition db_loader (E : env) (src_base_dir : string) (schemas : catalog)
    (conn_url ds_name : string) (chunksize : Z) : M unit :=
  logger INFO (EvSearching ds_name) ;;;
  let csv_files := glob E (src_base_dir ++ "/" ++ ds_name ++ "/part-*") in
  if Nat.eqb (length csv_files) 0
  then logger ERROR (EvNoFiles ds_name) ;;;
       raise (ValueError ("No files found for " ++ ds_name))
  else
    for_each csv_files (load_file E schemas conn_url ds_name chunksize) ;;;
    logger INFO (EvFinished ds_name).

(** ** Run Orchestrator: [main] *)

(** [not ds_names]. *)
Definition falsy (ds_names : selector) : bool :=
  match ds_names with
  | SelNone => true
  | SelStr s => String.eqb s ""
  | SelList l => Nat.eqb (length l) 0
  end.

Definition env_vars : list string :=
  ["SRC_BASE_DIR"; "DB_USER"; "DB_PASS"; "DB_HOST"; "DB_PORT"; "DB_NAME"].

Definition environ_get (E : env) (var : string) : string :=
  default "" (e_environ E !! var).

Definition check_env_vars (E : env) : M unit :=
  for_each env_vars (fun var =>
    if String.eqb (environ_get E var) ""
    then raise (ValueError ("Missing environment variable " ++ var))
    else ret tt).

Definition load_schema (E : env) (src_base_dir : string) : M catalog :=
  match e_schemas E !! (src_base_dir ++ "/schemas.json") with
  | None =>
      logger CRITICAL EvSchemaAbsent ;;;
      raise (FileNotFoundError (src_base_dir ++ "/schemas.json"))
  | Some None => logger CRITICAL EvSchemaUnparsable ;;; raise JSONDecodeError
  | Some (Some schemas) => logger INFO EvSchemaLoaded ;;; ret schemas
  end.

(** Lines 62-66: the dataset names the run works on. *)
Definition resolve_ds_names (schemas : catalog) (ds_names : selector)
  : M selector :=
  if falsy ds_names
  then logger INFO (EvLoadingAll (keys schemas)) ;;; ret (SelList (keys schemas))
  else logger INFO (EvLoadingSpecified ds_names) ;;; ret ds_names.

Definition main (E : env) (ds_names : selector) (chunksize : Z) : M unit :=
  check_env_vars E ;;;
  let src_base_dir := environ_get E "SRC_BASE_DIR" in
  let db_conn_url :=
    "postgresql://" ++ environ_get E "DB_USER" ++ ":" ++ environ_get E "DB_PASS"
      ++ "@" ++ environ_get E "DB_HOST" ++ ":" ++ environ_get E "DB_PORT"
      ++ "/" ++ environ_get E "DB_NAME" in
  letM schemas := load_schema E src_base_dir in
  letM ds_names := resolve_ds_names schemas ds_names in
  match ds_names with
  | SelList l =>
      for_each l (fun ds_name =>
        db_loader E src_base_dir schemas db_conn_url ds_name chunksize)
  | SelStr s => db_loader E src_base_dir schemas db_conn_url s chunksize
  | SelNone => ret tt
  end.

(** ** Observations on generators and logs *)

(** The chunks a generator yields, in order. *)
Fixpoint gen_chunks (g : gen) : list (nat * dataframe) :=
  match g with
  | GYield idx df rest => (idx, df) :: gen_chunks rest
  | _ => []
  end.

(** The exception that ends a generator, if one does. *)
Fixpoint gen_raises (g : gen) : option exn :=
  match g with
  | GYield _ _ rest => gen_raises rest
  | GReturn => None
  | GRaise _ e => Some e
  end.

Definition is_chunk_failed (x : entry) : bool :=
  match x with (ERROR, EvChunkFailed _ _ _ _) => true | _ => false end.

Definition is_chunk_done (x : entry) : bool :=
  match x with (INFO, EvChunkDone _ _) => true | _ => false end.

(** Number of chunks reported as failed, and as written, in a log. *)
Definition failed_count (log : list entry) : nat :=
  length (List.filter is_chunk_failed log).
Definition done_count (log : list entry) : nat :=
  length (List.filter is_chunk_done log).

(** The world with nothing in the database and nothing logged. *)
Definition empty_world : world :=
  {| w_tables := ∅; w_writes := 0; w_log := [] |}.

(** ** Worked example: the [orders] dataset (spec section 8) *)

Definition orders_catalog : catalog :=
  [("orders", [mk_descriptor "id" 2; mk_descriptor "name" 0;
               mk_descriptor "amount" 1])].

(** The source file of spec section 8: the lines a,1,100 and b,2,200. *)
Definition orders_part : source :=
  Text [Row ["a"; "1"; "100"]; Row ["b"; "2"; "200"]].

Definition orders_env : env := {|
  e_environ := ∅;
  e_schemas := ∅;
  e_glob := {[ "/data/orders/part-*" := ["/data/orders/part-00000"] ]};
  e_files := {[ "/data/orders/part-00000" := orders_part ]};
  e_faults := ∅;
|}.

Definition orders_frame (rows : list (list string)) : dataframe :=
  {| df_columns := [VStr "name"; VStr "amount"; VStr "id"]; df_rows := rows |}.

(** The rows the database receives: the names as text, the amounts and
    the ids as integers. *)
Definition orders_rows : list dbrow :=
  [ [(VStr "name", CStr "a"); (VStr "amount", CInt 1); (VStr "id", CInt 100)];
    [(VStr "name", CStr "b"); (VStr "amount", CInt 2); (VStr "id", CInt 200)] ].

(** The rows as spec section 8 has them: every value a string. *)
Definition orders_text_rows : list dbrow :=
  [ [(VStr "name", CStr "a"); (VStr "amount", CStr "1"); (VStr "id", CStr "100")];
    [(VStr "name", CStr "b"); (VStr "amount", CStr "2"); (VStr "id", CStr "200")] ].

(** ** Reading a catalog entry *)

(** The integer a descriptor holds under a key, its column position and
    its column name (for descriptors that have them). *)
Definition int_at (key : string) (d : descriptor) : Z :=
  match d !! key with
  | Some (VInt z) => z
  | _ => 0
  end.

Definition position_of (d : descriptor) : Z := int_at column_position d.

Definition name_of (d : descriptor) : pyval :=
  default (VStr "") (d !! column_name).

(** A descriptor as the catalog format requires it: an integer position
    and a name. *)
Definition valid_descriptor (d : descriptor) : Prop :=
  (exists z, d !! column_position = Some (VInt z))
  /\ (exists s, d !! column_name = Some (VStr s)).

(** The names [names] are those of the descriptors [descs], ordered by
    position with respect to [R]. *)
Definition resolved_in_order (R : Z -> Z -> Prop) (descs : list descriptor)
    (names : list pyval) : Prop :=
  exists sd, Permutation descs sd
             /\ names = map name_of sd
             /\ StronglySorted R (map position_of sd).

(** A catalog with two columns at the same position. *)
Definition tie_descs : list descriptor :=
  [mk_descriptor "a" 1; mk_descriptor "b" 1].
Definition tie_catalog : catalog := [("t", tie_descs)].

(** The names are those of the descriptors in ascending order of
    position, descriptors at the same position keeping their catalog
    order. *)
Definition resolved_stably (descs : list descriptor) (names : list pyval)
  : Prop :=
  exists sd, Permutation descs sd
             /\ names = map name_of sd
             /\ StronglySorted Z.le (map position_of sd)
             /\ (forall p, List.filter (fun d => position_of d =? p) sd
                           = List.filter (fun d => position_of d =? p) descs).

(** A catalog whose only descriptor has no name. *)
Definition nameless_catalog : catalog :=
  [("t", [ <[column_position := VInt 1]> ∅ ])].

(** ** Chunk arithmetic *)

(** The number of chunks of [R] rows at [c] rows a chunk, rounded up, and
    the size of the last of them. *)
Definition ceil_div (R c : nat) : nat := ((R + c - 1) / c)%nat.

Definition last_size (R c : nat) : nat :=
  if Nat.eqb (R mod c) 0 then c else (R mod c)%nat.

(** The orders dataset with a part file that holds no line. *)
Definition empty_part_env : env := {|
  e_environ := ∅;
  e_schemas := ∅;
  e_glob := {[ "/data/orders/part-*" := ["/data/orders/part-00000"] ]};
  e_files := {[ "/data/orders/part-00000" := Text [] ]};
  e_faults := ∅;
|}.

(** ** What a load writes *)

(** The frames a generator yields. *)
Definition frames (g : gen) : list dataframe := map snd (gen_chunks g).

(** The rows appended when the frames [dfs] are written one after the
    other, the first write being attempt number [n]: a rejected write
    appends nothing. *)
Fixpoint written (E : env) (n : nat) (dfs : list dataframe) : list dbrow :=
  match dfs with
  | [] => []
  | df :: rest =>
      (match e_faults E !! n with
       | None => rows_of df
       | Some _ => []
       end ++ written E (S n) rest)%list
  end.

(** The number of rejected writes among the [k] attempts from [n] on. *)
Fixpoint rejections (E : env) (n k : nat) : nat :=
  match k with
  | O => O
  | S k' =>
      ((match e_faults E !! n with Some _ => 1 | None => 0 end)
       + rejections E (S n) k')%nat
  end.

(** The frames the loop over the files gets to see, and the exception
    that ends it: the first generator that raises ends the loop. *)
Fixpoint attempted (gs : list gen) : list dataframe :=
  match gs with
  | [] => []
  | g :: rest =>
      (frames g ++ match gen_raises g with
                   | Some _ => []
                   | None => attempted rest
                   end)%list
  end.

Fixpoint first_raise (gs : list gen) : option exn :=
  match gs with
  | [] => None
  | g :: rest =>
      match gen_raises g with
      | Some e => Some e
      | None => first_raise rest
      end
  end.

Definition outcome (raised : option exn) : result unit :=
  match raised with
  | None => Ok tt
  | Some e => Raise e
  end.

(** [w'] is [w] after the frames [dfs] were sent to the table [tbl]. *)
Definition loads (E : env) (tbl : string) (dfs : list dataframe)
    (w w' : world) : Prop :=
  w_writes w' = (w_writes w + length dfs)%nat
  /\ table w' tbl = (table w tbl ++ written E (w_writes w) dfs)%list
  /\ (forall t, t <> tbl -> table w' t = table w t).

(** The log of [w'] extends that of [w] by one failure record per
    rejected write and one success record per accepted write among [k]
    attempts. *)
Definition reports (E : env) (k : nat) (w w' : world) : Prop :=
  exists log,
    w_log w' = (w_log w ++ log)%list
    /\ failed_count log = rejections E (w_writes w) k
    /\ done_count log = (k - rejections E (w_writes w) k)%nat.

(** ** Example runs with failures *)

Definition row_of (name : string) (amount id : Z) : dbrow :=
  [(VStr "name", CStr name); (VStr "amount", CInt amount); (VStr "id", CInt id)].

(** Two part files, three chunks at chunk size 1; the database rejects
    the second write. *)
Definition rejecting_env : env := {|
  e_environ := ∅;
  e_schemas := ∅;
  e_glob := {[ "/data/orders/part-*" :=
                 ["/data/orders/part-00000"; "/data/orders/part-00001"] ]};
  e_files := {[ "/data/orders/part-00000" := orders_part;
                "/data/orders/part-00001" := Text [Row ["c"; "3"; "300"]] ]};
  e_faults := {[ 1%nat := DatabaseError ]};
|}.

(** Two part files; the library gives up at the second line of the
    first (a line with a field too many, say) with its parse error. *)
Definition unparsable_env : env := {|
  e_environ := ∅;
  e_schemas := ∅;
  e_glob := {[ "/data/orders/part-*" :=
                 ["/data/orders/part-00000"; "/data/orders/part-00001"] ]};
  e_files := {[ "/data/orders/part-00000" :=
                  Text [Row ["a"; "1"; "100"]; Bad ParserError;
                        Row ["c"; "3"; "300"]];
                "/data/orders/part-00001" := Text [Row ["d"; "4"; "400"]] ]};
  e_faults := ∅;
|}.

Definition unparsable_run : result unit * world :=
  db_loader unparsable_env "/data" orders_catalog "postgresql://u:p@h:5432/db"
            "orders" 1 empty_world.

(** Two listed part files; the first cannot be opened. *)
Definition dangling_env : env := {|
  e_environ := ∅;
  e_schemas := ∅;
  e_glob := {[ "/data/orders/part-*" :=
                 ["/data/orders/part-00000"; "/data/orders/part-00001"] ]};
  e_files := {[ "/data/orders/part-00001" := Text [Row ["d"; "4"; "400"]] ]};
  e_faults := ∅;
|}.

Definition dangling_run : result unit * world :=
  db_loader dangling_env "/data" orders_catalog "postgresql://u:p@h:5432/db"
            "orders" 10000 empty_world.

(** ** Growth of the database *)

(** Every table of [w'] is the table of [w] with rows added at its end. *)
Definition grows (w w' : world) : Prop :=
  forall t, exists new, table w' t = (table w t ++ new)%list.

(** A computation that only ever adds rows at the end of tables. *)
Definition keeps_rows {A} (m : M A) : Prop :=
  forall w, grows w (snd (m w)).

(** A computation whose result and added rows do not depend on the world
    it starts from. *)
Definition appends {A} (m : M A) : Prop :=
  exists (r : result A) (delta : string -> list dbrow),
    forall w, fst (m w) = r
              /\ forall t, table (snd (m w)) t = (table w t ++ delta t)%list.

(** A complete configuration for a run over the orders dataset. *)
Definition orders_run_env : env := {|
  e_environ := {[ "SRC_BASE_DIR" := "/data"; "DB_USER" := "u"; "DB_PASS" := "p";
                  "DB_HOST" := "h"; "DB_PORT" := "5432"; "DB_NAME" := "db" ]};
  e_schemas := {[ "/data/schemas.json" := Some orders_catalog ]};
  e_glob := {[ "/data/orders/part-*" := ["/data/orders/part-00000"] ]};
  e_files := {[ "/data/orders/part-00000" := orders_part ]};
  e_faults := ∅;
|}.

(** ** Classes of exceptions *)

(** What the reader may end with, and what the resolver may raise. *)
Definition reader_exception (csv_path : string) (e : exn) : Prop :=
  e = FileNotFoundError csv_path \/ e = ParserError \/ e = GenericException.

Definition resolver_exception (e : exn) : Prop :=
  (exists k, e = KeyError k) \/ e = TypeError.

(** ** Integer sort keys *)

(** The integer key of a (key, item) pair, the order it induces and the
    test for a given key. *)
Definition ikey {A} (x : pyval * A) : Z :=
  match fst x with VInt z => z | VStr _ => 0 end.

Definition has_int_key {A} (x : pyval * A) : Prop := exists z, fst x = VInt z.

Definition kle {A} (x y : pyval * A) : Prop := ikey x <= ikey y.

Definition same_key {A} (p : Z) (x : pyval * A) : bool := ikey x =? p.

(** A descriptor without the field [key]; a descriptor with an integer
    under [key]. *)
Definition lacks (key : string) (d : descriptor) : Prop := d !! key = None.

Definition has_int (key : string) (d : descriptor) : Prop :=
  exists z, d !! key = Some (VInt z).

(** The sort key of every descriptor that has one is an integer. *)
Definition typed_sort_key (key : string) (descs : list descriptor) : Prop :=
  Forall (fun d => forall v, d !! key = Some v -> exists z, v = VInt z) descs.

Definition keyed_by (key : string) (d : descriptor) : pyval * descriptor :=
  (VInt (int_at key d), d).

#[global] Instance lacks_dec key d : Decision (lacks key d).
Proof. unfold lacks. apply _. Defined.

(** ** Well-formed files *)

(** Every row has as many fields as there are column names. *)
Definition well_formed (names : list pyval) (rows : list (list string))
  : Prop :=
  Forall (fun r => length r = length names) rows.

(** The reader with the lines [l] left to read. *)
Definition reader_on (names : list pyval) (c : nat) (l : list data_line)
  : text_file_reader :=
  {| r_names := names; r_chunksize := c; r_pending := l |}.

(** The generators of the files of a dataset, in listing order. *)
Definition gens (E : env) (schemas : catalog) (ds_name : string)
    (chunksize : Z) (files : list string) : list gen :=
  map (fun file => read_csv E file schemas ds_name chunksize) files.


(** ** Further observations and example configurations *)

(** The world [w] with the records [logs] added to its log. *)
Definition log_to (w : world) (logs : list entry) : world :=
  {| w_tables := w_tables w; w_writes := w_writes w;
     w_log := (w_log w ++ logs)%list |}.

(** The path of the schema file of a configuration. *)
Definition schema_path (E : env) : string :=
  environ_get E "SRC_BASE_DIR" ++ "/schemas.json".

(** The orders configuration without the variable DB_PORT. *)
Definition no_port_env : env := {|
  e_environ := {[ "SRC_BASE_DIR" := "/data"; "DB_USER" := "u"; "DB_PASS" := "p";
                  "DB_HOST" := "h"; "DB_NAME" := "db" ]};
  e_schemas := {[ "/data/schemas.json" := Some orders_catalog ]};
  e_glob := {[ "/data/orders/part-*" := ["/data/orders/part-00000"] ]};
  e_files := {[ "/data/orders/part-00000" := orders_part ]};
  e_faults := ∅;
|}.


(** The computation [m] leaves the table [t] as it is. *)
Definition leaves {A} (t : string) (m : M A) : Prop :=
  forall w, table (snd (m w)) t = table w t.

(** A descriptor with a string under [key]. *)
Definition has_str (key : string) (d : descriptor) : Prop :=
  exists s, d !! key = Some (VStr s).

(** A (key, item) pair whose key is a string. *)
Definition has_str_key {A} (x : pyval * A) : Prop := exists s, fst x = VStr s.

(** A catalog whose two positions are an integer and a string. *)
Definition mixed_catalog : catalog :=
  [("t", [mk_descriptor "a" 1;
          <[column_name := VStr "b"]> (<[column_position := VStr "2"]> ∅)])].

(** The orders configuration with a table of another name already in the
    database. *)
Definition stocked_world : world :=
  {| w_tables := {[ "customers" := [row_of "z" 9 900] ]};
     w_writes := 0; w_log := [] |}.

(** The rows among the data lines of a file. *)
Definition rows_in (lines : list data_line) : list (list string) :=
  flat_map (fun l => match l with Row fields => [fields] | Bad _ => [] end)
           lines.

(** The rows of a source file under the columns [cols], in file order,
    each field with the value it has on its own. *)
Definition file_rows (E : env) (cols : list pyval) (file : string)
  : list dbrow :=
  match e_files E !! file with
  | Some (Text lines) => map (fun r => zip cols (map cell_of r)) (rows_in lines)
  | _ => []
  end.

(** Every row has one field for each of the kinds [kinds], of that kind,
    which is integer or text: each column holds integer literals
    throughout or words throughout. *)
Definition uniform (kinds : list kind) (rows : list (list string)) : Prop :=
  Forall (fun r => Forall2 (fun k f => k <> KOther /\ kind_of f = k) kinds r)
         rows.

(** A value the model determines: an integer or a string. *)
Definition determined (c : cell) : Prop :=
  match c with
  | COther _ => False
  | _ => True
  end.

(** What is left of a generator after its yields: its return or the
    exception that ends it, with the records logged. *)
Fixpoint gen_end (g : gen) : gen :=
  match g with
  | GYield _ _ rest => gen_end rest
  | g => g
  end.

(** The connection URL that [main] builds at line 49. *)
Definition connection_url (E : env) : string :=
  "postgresql://" ++ environ_get E "DB_USER" ++ ":" ++ environ_get E "DB_PASS"
    ++ "@" ++ environ_get E "DB_HOST" ++ ":" ++ environ_get E "DB_PORT"
    ++ "/" ++ environ_get E "DB_NAME".

(** Two worlds with the same database. *)
Definition same_database (w w' : world) : Prop :=
  w_tables w = w_tables w' /\ w_writes w = w_writes w'.

(** A computation that does not read the log: from two worlds with the
    same database it gives the same result and the same database, and
    adds the same records to either log. *)
Definition log_blind {A} (m : M A) : Prop :=
  forall w w', same_database w w' ->
    fst (m w) = fst (m w')
    /\ same_database (snd (m w)) (snd (m w'))
    /\ exists l, w_log (snd (m w)) = (w_log w ++ l)%list
                 /\ w_log (snd (m w')) = (w_log w' ++ l)%list.

(** A catalog with an integer and a string position, whose first
    descriptor has no name. *)
Definition mixed_nameless_catalog : catalog :=
  [("t", [ <[column_position := VInt 1]> ∅;
           <[column_name := VStr "b"]> (<[column_position := VStr "2"]> ∅) ])].

(** The orders dataset with a part file that may not be read, and one
    whose second line cannot be decoded. *)
Definition undecodable_env : env := {|
  e_environ := ∅;
  e_schemas := ∅;
  e_glob := {[ "/data/orders/part-*" :=
                 ["/data/orders/part-00000"; "/data/orders/part-00001"] ]};
  e_files := {[ "/data/orders/part-00000" :=
                  Unreadable (OtherError "PermissionError");
                "/data/orders/part-00001" :=
                  Text [Row ["a"; "1"; "100"];
                        Bad (OtherError "UnicodeDecodeError")] ]};
  e_faults := ∅;
|}.

(** A record at level ERROR or CRITICAL. *)
Definition is_alarm (x : entry) : Prop := fst x = ERROR \/ fst x = CRITICAL.

(** A generator that, if it raises, has logged an alarm last. *)
Fixpoint raise_logged (g : gen) : Prop :=
  match g with
  | GYield _ _ rest => raise_logged rest
  | GReturn => True
  | GRaise logs _ => exists l x, logs = (l ++ [x])%list /\ is_alarm x
  end.

(** The log of [w'] is the log of [w] with records added, the last of
    which is an alarm. *)
Definition ends_in_alarm (w w' : world) : Prop :=
  exists l x, w_log w' = (w_log w ++ l ++ [x])%list /\ is_alarm x.

(** The log of [w'] is the log of [w] with records added. *)
Definition log_extends (w w' : world) : Prop :=
  exists l, w_log w' = (w_log w ++ l)%list.

(** * Properties *)

(** ** Running the state monad *)

Lemma bind_ok {A B} (m : M A) (k : A -> M B) w a w' :
  m w = (Ok a, w') -> bind m k w = k a w'.
Proof. intros H. unfold bind. rewrite H. reflexivity. Qed.

Lemma bind_raise {A B} (m : M A) (k : A -> M B) w e w' :
  m w = (Raise e, w') -> bind m k w = (Raise e, w').
Proof. intros H. unfold bind. rewrite H. reflexivity. Qed.

(** ** The orders example *)

Lemma orders_columns :
  get_column_names orders_catalog "orders" column_position
  = ([], Ok [VStr "name"; VStr "amount"; VStr "id"]).
Proof. vm_compute. reflexivity. Qed.

Lemma orders_read_csv (chunksize : Z) :
  (1 <= chunksize) ->
  read_csv orders_env "/data/orders/part-00000" orders_catalog "orders" chunksize
  = if Z.eqb chunksize 1
    then GYield 0 (orders_frame [["a"; "1"; "100"]])
           (GYield 1 (orders_frame [["b"; "2"; "200"]]) GReturn)
    else GYield 0 (orders_frame [["a"; "1"; "100"]; ["b"; "2"; "200"]]) GReturn.
Proof.
  intros Hc. unfold read_csv. rewrite orders_columns.
  unfold pd_read_csv.
  assert ((chunksize <? 1) = false) as -> by lia.
  replace (bool_decide (NoDup [VStr "name"; VStr "amount"; VStr "id"]))
    with true by (vm_compute; reflexivity).
  replace (e_files orders_env !! "/data/orders/part-00000")
    with (Some orders_part) by (vm_compute; reflexivity).
  unfold orders_part.
  cbv beta iota zeta delta [negb r_pending r_names r_chunksize].
  destruct (Z.eqb_spec chunksize 1) as [->|Hne].
  - vm_compute. reflexivity.
  - destruct (Z.to_nat chunksize) as [|[|n]] eqn:Hn; try lia.
    assert (Ht : take (S (S n)) [Row ["a"; "1"; "100"]; Row ["b"; "2"; "200"]]
                 = [Row ["a"; "1"; "100"]; Row ["b"; "2"; "200"]])
      by (simpl; rewrite take_nil; reflexivity).
    assert (Hd : drop (S (S n)) [Row ["a"; "1"; "100"]; Row ["b"; "2"; "200"]]
                 = [])
      by (simpl; rewrite drop_nil; reflexivity).
    cbn [enumerate_reader Nat.add length]. unfold next_chunk at 1.
    cbn [r_pending r_names r_chunksize]. rewrite Ht, Hd.
    vm_compute. reflexivity.
Qed.

(** ** One chunk *)

Lemma table_insert_eq tabs name rows n log :
  table {| w_tables := <[name := rows]> tabs; w_writes := n; w_log := log |} name
  = rows.
Proof. unfold table. simpl. rewrite lookup_insert_eq. reflexivity. Qed.

(** A chunk whose write the database accepts: its rows are appended and
    two records are logged. *)
Lemma load_chunk_written E conn_url ds_name file idx df w :
  e_faults E !! w_writes w = None ->
  load_chunk E conn_url ds_name file idx df w =
  (Ok tt,
   {| w_tables := <[ds_name ++ "_test" :=
                      (table w (ds_name ++ "_test") ++ rows_of df)%list]> (w_tables w);
      w_writes := S (w_writes w);
      w_log := (w_log w ++ [(INFO, EvChunkStart idx (shape0 df) ds_name file)])
                 ++ [(INFO, EvChunkDone idx ds_name)] |}).
Proof.
  intros H.
  unfold load_chunk, try_except, to_sql, try_except, bind, df_to_sql, logger, emit,
    ret, record_of; simpl.
  rewrite H. reflexivity.
Qed.

(** A chunk whose write the database rejects: the exception is caught,
    nothing is appended, the failure is logged, and the loop body ends
    normally. *)
Lemma load_chunk_rejected E conn_url ds_name file idx df w e :
  e_faults E !! w_writes w = Some e ->
  exists log,
    load_chunk E conn_url ds_name file idx df w =
    (Ok tt, {| w_tables := w_tables w; w_writes := S (w_writes w);
               w_log := (w_log w ++ log)%list |})
    /\ failed_count log = 1%nat /\ done_count log = 0%nat.
Proof.
  intros H.
  unfold load_chunk, try_except, to_sql, try_except, bind, df_to_sql, logger, emit,
    ret, raise, record_of; simpl.
  rewrite H.
  destruct e; simpl;
    (eexists; split;
     [ rewrite <- ?app_assoc; reflexivity | split; reflexivity ]).
Qed.

(** ** C3 *)

(** C3 (as the code has it). With the catalog listing id, name, amount
    at positions 2, 0, 1 and the headerless two-line file a,1,100 /
    b,2,200, loading the dataset ends normally and appends exactly two
    rows to the table orders_test, for every chunk size and every prior
    content of the database: {name: "a", amount: 1, id: 100} and
    {name: "b", amount: 2, id: 200}, the names being strings and the
    amounts and ids integers, as the parsing library infers them. No
    other table changes. *)
Theorem orders_round_trip (w : world) (conn_url : string) (chunksize : Z) :
  (1 <= chunksize) ->
  let r := db_loader orders_env "/data" orders_catalog conn_url "orders" chunksize w in
  fst r = Ok tt
  /\ table (snd r) "orders_test" = (table w "orders_test" ++ orders_rows)%list
  /\ (forall t, t <> "orders_test" -> table (snd r) t = table w t).
Proof.
  intros Hc. cbv zeta.
  unfold db_loader.
  replace (glob orders_env ("/data" ++ "/" ++ "orders" ++ "/part-*"))
    with ["/data/orders/part-00000"] by (vm_compute; reflexivity).
  cbn [length Nat.eqb for_each].
  unfold load_file. rewrite orders_read_csv by assumption.
  assert (Hf : forall n, e_faults orders_env !! n = None)
    by (intros n; apply lookup_empty).
  destruct (chunksize =? 1).
  - cbn [for_gen]. unfold bind, logger, emit, ret. cbn [record_of enabled].
    rewrite load_chunk_written by apply Hf.
    rewrite load_chunk_written by apply Hf.
    cbn [fst snd w_tables w_writes w_log].
    change (String.append "orders" "_test") with "orders_test".
    split; [reflexivity|]. split.
    + rewrite table_insert_eq. rewrite table_insert_eq.
      unfold table at 1. cbn [w_tables]. rewrite <- app_assoc. reflexivity.
    + intros t Ht. unfold table. cbn [w_tables].
      rewrite !lookup_insert_ne by (simpl; congruence). reflexivity.
  - cbn [for_gen]. unfold bind, logger, emit, ret. cbn [record_of enabled].
    rewrite load_chunk_written by apply Hf.
    cbn [fst snd w_tables w_writes w_log].
    change (String.append "orders" "_test") with "orders_test".
    split; [reflexivity|]. split.
    + rewrite table_insert_eq. reflexivity.
    + intros t Ht. unfold table. cbn [w_tables].
      rewrite !lookup_insert_ne by (simpl; congruence). reflexivity.
Qed.

Lemma orders_round_trip_witness :
  (1 <= 10000)
  /\ fst (db_loader orders_env "/data" orders_catalog "postgresql://u:p@h:5432/db"
            "orders" 10000 empty_world) = Ok tt
  /\ table (snd (db_loader orders_env "/data" orders_catalog
                   "postgresql://u:p@h:5432/db" "orders" 10000 empty_world))
       "orders_test" = orders_rows.
Proof.
  split; [lia|].
  pose proof (orders_round_trip empty_world "postgresql://u:p@h:5432/db" 10000
                ltac:(lia)) as H.
  cbv zeta in H. destruct H as (H1 & H2 & _).
  split; [exact H1 | exact H2].
Defined.

(** C3 (as stated) fails: the reader passes no column types to the
    parsing library, which reads the columns amount and id as integer
    columns. Loaded into an empty database, the two rows hold the
    integers 1, 100, 2 and 200, not the strings "1", "100", "2" and "200"
    of the claim. *)
Lemma orders_amounts_are_integers :
  dtypes (orders_frame [["a"; "1"; "100"]; ["b"; "2"; "200"]])
  = [KStr; KInt; KInt]
  /\ fst (db_loader orders_env "/data" orders_catalog "postgresql://u:p@h:5432/db"
            "orders" 10000 empty_world) = Ok tt
  /\ table (snd (db_loader orders_env "/data" orders_catalog
                   "postgresql://u:p@h:5432/db" "orders" 10000 empty_world))
       "orders_test"
     = [ [(VStr "name", CStr "a"); (VStr "amount", CInt 1); (VStr "id", CInt 100)];
         [(VStr "name", CStr "b"); (VStr "amount", CInt 2); (VStr "id", CInt 200)] ]
  /\ table (snd (db_loader orders_env "/data" orders_catalog
                   "postgresql://u:p@h:5432/db" "orders" 10000 empty_world))
       "orders_test"
     <> orders_text_rows.
Proof.
  split; [vm_compute; reflexivity|].
  split; [vm_compute; reflexivity|].
  split; [vm_compute; reflexivity|].
  vm_compute. discriminate.
Qed.

(** ** C5 *)

(** C5. A dataset with no file matching part-* under baseDir/dataset/
    makes the Dataset Loader fail with the no-source-files error
    (ValueError "No files found for <dataset>"); the database is left as
    it was, no write is attempted, and only the search and the failure
    are logged. *)
Theorem db_loader_no_source_files (E : env) (src_base_dir : string)
    (schemas : catalog) (conn_url ds_name : string) (chunksize : Z) (w : world) :
  glob E (src_base_dir ++ "/" ++ ds_name ++ "/part-*") = [] ->
  let r := db_loader E src_base_dir schemas conn_url ds_name chunksize w in
  fst r = Raise (ValueError ("No files found for " ++ ds_name))
  /\ w_tables (snd r) = w_tables w
  /\ w_writes (snd r) = w_writes w
  /\ w_log (snd r)
     = (w_log w ++ [(INFO, EvSearching ds_name); (ERROR, EvNoFiles ds_name)])%list.
Proof.
  intros Hglob. cbv zeta. unfold db_loader. rewrite Hglob.
  cbn [length Nat.eqb].
  unfold bind, logger, emit, raise, record_of. cbn.
  rewrite <- app_assoc. auto.
Qed.

Lemma db_loader_no_source_files_witness :
  fst (db_loader orders_env "/data" orders_catalog "url" "customers" 10000
         empty_world)
  = Raise (ValueError "No files found for customers")
  /\ w_writes (snd (db_loader orders_env "/data" orders_catalog "url" "customers"
                      10000 empty_world)) = 0%nat.
Proof.
  pose proof (db_loader_no_source_files orders_env "/data" orders_catalog "url"
                "customers" 10000 empty_world ltac:(vm_compute; reflexivity)) as H.
  cbv zeta in H. destruct H as (H1 & _ & H3 & _).
  split; [exact H1 | exact H3].
Defined.

(** ** C9 *)

Lemma check_env_vars_passes E w :
  Forall (fun var => environ_get E var <> "") env_vars ->
  check_env_vars E w = (Ok tt, w).
Proof.
  unfold check_env_vars. generalize env_vars. intros l H. revert w.
  induction H as [|var l Hvar _ IH]; intros w; simpl; [reflexivity|].
  apply String.eqb_neq in Hvar. unfold bind. rewrite Hvar. simpl. apply IH.
Qed.

(** [main] once the environment is checked and the catalog loaded. *)
Lemma main_loaded E schemas ds_names chunksize w :
  Forall (fun var => environ_get E var <> "") env_vars ->
  e_schemas E !! schema_path E = Some (Some schemas) ->
  main E ds_names chunksize w
  = (letM names := resolve_ds_names schemas ds_names in
     match names with
     | SelList l =>
         for_each l (fun ds_name =>
           db_loader E (environ_get E "SRC_BASE_DIR") schemas (connection_url E)
                     ds_name chunksize)
     | SelStr s =>
         db_loader E (environ_get E "SRC_BASE_DIR") schemas (connection_url E)
                   s chunksize
     | SelNone => ret tt
     end) (log_to w [(INFO, EvSchemaLoaded)]).
Proof.
  intros Henv Hschema. unfold main.
  rewrite (bind_ok _ _ _ _ _ (check_env_vars_passes E w Henv)).
  unfold load_schema. unfold schema_path in Hschema. rewrite Hschema.
  reflexivity.
Qed.

(** C9. An empty-string selector and an empty list are treated like an
    absent selector: the names resolve to the catalog's dataset names in
    catalog order, and the whole run is the run with no selector. With
    the environment complete and the catalog loaded, that run logs the
    names of the catalog and is the loop of the Dataset Loader over
    these names, in catalog order: no dataset named by the empty string
    is looked for, and the selector raises nothing. *)
Theorem main_empty_selector (E : env) (schemas : catalog) (chunksize : Z)
    (w : world) :
  resolve_ds_names schemas SelNone w
    = (Ok (SelList (keys schemas)),
       {| w_tables := w_tables w; w_writes := w_writes w;
          w_log := (w_log w ++ [(INFO, EvLoadingAll (keys schemas))])%list |})
  /\ resolve_ds_names schemas (SelStr "") w = resolve_ds_names schemas SelNone w
  /\ resolve_ds_names schemas (SelList []) w = resolve_ds_names schemas SelNone w
  /\ main E (SelStr "") chunksize w = main E SelNone chunksize w
  /\ main E (SelList []) chunksize w = main E SelNone chunksize w
  /\ (Forall (fun var => environ_get E var <> "") env_vars ->
      e_schemas E !! schema_path E = Some (Some schemas) ->
      forall sel, sel = SelNone \/ sel = SelStr "" \/ sel = SelList [] ->
        main E sel chunksize w
        = for_each (keys schemas)
            (fun ds_name =>
               db_loader E (environ_get E "SRC_BASE_DIR") schemas
                         (connection_url E) ds_name chunksize)
            (log_to (log_to w [(INFO, EvSchemaLoaded)])
                    [(INFO, EvLoadingAll (keys schemas))])).
Proof.
  split; [reflexivity|]. split; [reflexivity|]. split; [reflexivity|].
  split; [reflexivity|]. split; [reflexivity|].
  intros Henv Hschema sel Hsel.
  rewrite (main_loaded E schemas sel chunksize w Henv Hschema).
  destruct Hsel as [-> | [-> | ->]]; reflexivity.
Qed.

Lemma main_empty_selector_witness :
  main orders_run_env (SelStr "") 10000 empty_world
  = for_each ["orders"]
      (fun ds_name =>
         db_loader orders_run_env "/data" orders_catalog
                   "postgresql://u:p@h:5432/db" ds_name 10000)
      (log_to (log_to empty_world [(INFO, EvSchemaLoaded)])
              [(INFO, EvLoadingAll ["orders"])])
  /\ table (snd (main orders_run_env (SelStr "") 10000 empty_world))
           "orders_test" = orders_rows.
Proof.
  destruct (main_empty_selector orders_run_env orders_catalog 10000 empty_world)
    as (_ & _ & _ & _ & _ & H).
  assert (main orders_run_env (SelStr "") 10000 empty_world
          = for_each ["orders"]
              (fun ds_name =>
                 db_loader orders_run_env "/data" orders_catalog
                           "postgresql://u:p@h:5432/db" ds_name 10000)
              (log_to (log_to empty_world [(INFO, EvSchemaLoaded)])
                      [(INFO, EvLoadingAll ["orders"])])) as Hrun.
  { apply (H ltac:(repeat constructor; vm_compute; discriminate)
             ltac:(vm_compute; reflexivity) (SelStr "")).
    right. left. reflexivity. }
  split; [exact Hrun|]. rewrite Hrun. vm_compute. reflexivity.
Defined.

(** ** What the reader and the resolver can raise *)

Lemma rmap_raise {A B} (f : A -> result B) (l : list A) e :
  rmap f l = Raise e -> exists x, In x l /\ f x = Raise e.
Proof.
  induction l as [|x l IH]; simpl; [discriminate|].
  destruct (f x) as [y|e'] eqn:Hx; simpl.
  - destruct (rmap f l) as [ys|e'']; simpl; [discriminate|].
    intros [= ->]. destruct IH as (x' & Hin & Hx'); [reflexivity|]. eauto.
  - intros [= ->]. eauto.
Qed.

Lemma insert_keyed_raise {A} (x : pyval * A) l e :
  insert_keyed x l = Raise e -> e = TypeError.
Proof.
  induction l as [|y l IH]; simpl; [discriminate|].
  destruct (py_lt (fst y) (fst x)) as [[]|e'] eqn:Hlt; simpl.
  - destruct (insert_keyed x l); simpl; [discriminate|].
    intros [= ->]. apply IH. reflexivity.
  - discriminate.
  - intros [= ->]. destruct (fst y), (fst x); simpl in Hlt; congruence.
Qed.

Lemma sort_keyed_raise {A} (l : list (pyval * A)) e :
  sort_keyed l = Raise e -> e = TypeError.
Proof.
  induction l as [|x l IH]; simpl; [discriminate|].
  destruct (sort_keyed l) as [s|e']; simpl.
  - apply insert_keyed_raise.
  - intros [= ->]. apply IH. reflexivity.
Qed.

Lemma get_column_names_try_raise schemas ds_name sorting_key e :
  get_column_names_try schemas ds_name sorting_key = Raise e ->
  resolver_exception e.
Proof.
  unfold get_column_names_try, sorted.
  destruct (schemas_getitem schemas ds_name) as [descs|e0] eqn:Hds; simpl.
  - destruct (rmap _ descs) as [keyed|e1] eqn:Hk; simpl.
    + destruct (sort_keyed keyed) as [s|e2] eqn:Hs; simpl.
      * intros H. apply rmap_raise in H as (x & _ & Hx).
        unfold getitem in Hx. destruct (x !! column_name); [discriminate|].
        injection Hx as <-. left. eauto.
      * intros [= ->]. right. eapply sort_keyed_raise, Hs.
    + intros [= ->]. apply rmap_raise in Hk as (x & _ & Hx).
      unfold getitem in Hx. destruct (x !! sorting_key); simpl in Hx; [discriminate|].
      injection Hx as <-. left. eauto.
  - intros [= ->]. left.
    clear -Hds. induction schemas as [|[k v] rest IH]; simpl in Hds.
    + injection Hds as <-. eauto.
    + destruct (String.eqb k ds_name); [discriminate|auto].
Qed.

Lemma read_csv_except_raises csv_path e :
  exists logs e',
    read_csv_except csv_path e = GRaise logs e' /\ reader_exception csv_path e'.
Proof.
  unfold reader_exception.
  destruct e; simpl; eauto 7.
Qed.

Lemma enumerate_reader_raises fuel csv_path first idx r e :
  gen_raises (enumerate_reader fuel csv_path first idx r) = Some e ->
  reader_exception csv_path e.
Proof.
  revert first idx r. induction fuel as [|fuel IH]; intros first idx r; simpl.
  - discriminate.
  - destruct (next_chunk first r) as [[[df r']|]|e'].
    + simpl. apply IH.
    + discriminate.
    + destruct (read_csv_except_raises csv_path e') as (logs & e'' & -> & He).
      simpl. intros [= <-]. exact He.
Qed.

(** ** Sorting by integer keys *)

Section IntKeys.
Context {A : Type}.

Lemma py_lt_int (x y : pyval * A) :
  has_int_key x -> has_int_key y -> py_lt (fst y) (fst x) = Ok (ikey y <? ikey x).
Proof.
  intros [a Ha] [b Hb]. unfold ikey. rewrite Ha, Hb. reflexivity.
Qed.

Lemma insert_keyed_int (x : pyval * A) (l : list (pyval * A)) :
  has_int_key x -> Forall has_int_key l ->
  exists r, insert_keyed x l = Ok r
            /\ Permutation (x :: l) r
            /\ (forall p, List.filter (same_key p) r
                          = List.filter (same_key p) (x :: l))
            /\ (Sorted kle l -> Sorted kle r)
            /\ (forall y, HdRel kle y l -> kle y x -> HdRel kle y r).
Proof.
  intros Hx Hl. induction Hl as [|y l Hy Hl IH].
  - exists [x]. simpl. repeat split; auto.
  - simpl. rewrite (py_lt_int x y Hx Hy). simpl.
    destruct (Z.ltb_spec (ikey y) (ikey x)) as [Hlt|Hge].
    + destruct IH as (r & -> & Hperm & Hfil & Hsort & Hhd). simpl.
      exists (y :: r). split; [reflexivity|]. split; [|split; [|split]].
      * rewrite perm_swap. constructor. exact Hperm.
      * intros p. simpl. rewrite Hfil. simpl.
        unfold same_key.
        destruct (Z.eqb_spec (ikey y) p), (Z.eqb_spec (ikey x) p);
          try reflexivity; lia.
      * intros Hs. inversion Hs as [|? ? Hs' Hhd']; subst.
        constructor; [auto|]. apply Hhd; [assumption|]. unfold kle. lia.
      * intros z Hz _. inversion Hz; subst. constructor. assumption.
    + exists (x :: y :: l). repeat split; auto.
Qed.

Lemma sort_keyed_int (l : list (pyval * A)) :
  Forall has_int_key l ->
  exists s, sort_keyed l = Ok s
            /\ Permutation l s
            /\ (forall p, List.filter (same_key p) s = List.filter (same_key p) l)
            /\ Sorted kle s.
Proof.
  induction 1 as [|x l Hx Hl IH].
  - exists []. simpl. repeat split; auto.
  - destruct IH as (s & Hs & Hperm & Hfil & Hsort). simpl. rewrite Hs. simpl.
    assert (Forall has_int_key s) as Hs' by (rewrite <- Hperm; assumption).
    destruct (insert_keyed_int x s Hx Hs') as (r & Hr & Hp & Hf & Hso & _).
    exists r. split; [assumption|]. split; [|split].
    + rewrite <- Hp. constructor. assumption.
    + intros p. rewrite Hf. simpl. rewrite Hfil. reflexivity.
    + auto.
Qed.
End IntKeys.

(** ** The resolver on typed catalogs *)

Lemma rmap_map {A B} (f : A -> result B) (g : A -> B) (l : list A) :
  Forall (fun x => f x = Ok (g x)) l -> rmap f l = Ok (map g l).
Proof.
  induction 1 as [|x l Hx _ IH]; simpl; [reflexivity|].
  rewrite Hx. simpl. rewrite IH. reflexivity.
Qed.

Lemma rmap_first_raise {A B} (f : A -> result B) (l : list A) e :
  Forall (fun x => f x = Raise e \/ exists y, f x = Ok y) l ->
  Exists (fun x => f x = Raise e) l ->
  rmap f l = Raise e.
Proof.
  induction 1 as [|x l Hx Hl IH]; intros Hex.
  - inversion Hex.
  - simpl. destruct Hx as [-> | [y Hy]]; [reflexivity|].
    rewrite Hy. simpl. inversion Hex as [? ? H|? ? H]; subst; [congruence|].
    rewrite IH by assumption. reflexivity.
Qed.

Lemma keyed_by_agrees key (l : list descriptor) (s : list (pyval * descriptor)) :
  Permutation (map (keyed_by key) l) s ->
  Forall (fun y => ikey y = int_at key (snd y)) s.
Proof.
  intros Hperm. rewrite <- Hperm. clear.
  induction l; constructor; auto.
Qed.

Lemma filter_map_snd key (s : list (pyval * descriptor)) p :
  Forall (fun y => ikey y = int_at key (snd y)) s ->
  map snd (List.filter (same_key p) s)
  = List.filter (fun d => int_at key d =? p) (map snd s).
Proof.
  induction 1 as [|y s Hy _ IH]; simpl; [reflexivity|].
  unfold same_key at 1. rewrite Hy.
  destruct (int_at key (snd y) =? p); simpl; rewrite IH; reflexivity.
Qed.

Lemma Sorted_map_snd key (s : list (pyval * descriptor)) :
  Sorted kle s ->
  Forall (fun y => ikey y = int_at key (snd y)) s ->
  Sorted Z.le (map (int_at key) (map snd s)).
Proof.
  induction 1 as [|y s Hs IH Hhd]; intros Hall; simpl; [constructor|].
  inversion Hall as [|? ? Hy Hall']; subst.
  constructor; [auto|].
  destruct Hhd as [|z s' Hyz]; simpl; constructor.
  inversion Hall' as [|? ? Hz _]; subst.
  unfold kle in Hyz. lia.
Qed.

Lemma sorted_by_int_key key (descs : list descriptor) :
  Forall (has_int key) descs ->
  exists sd, sorted descs (fun x => getitem x key) = Ok sd
             /\ Permutation descs sd
             /\ (forall p, List.filter (fun d => int_at key d =? p) sd
                           = List.filter (fun d => int_at key d =? p) descs)
             /\ Sorted Z.le (map (int_at key) sd).
Proof.
  intros Hint. unfold sorted.
  rewrite (rmap_map _ (keyed_by key)).
  2:{ eapply Forall_impl; [exact Hint|]. intros d [z Hz]. simpl.
      unfold getitem, keyed_by, int_at. rewrite Hz. reflexivity. }
  simpl.
  destruct (sort_keyed_int (map (keyed_by key) descs)) as (s & Hs & Hperm & Hfil & Hsort).
  { clear. induction descs; constructor; auto. eexists. reflexivity. }
  rewrite Hs. simpl. exists (map snd s).
  pose proof (keyed_by_agrees key descs s Hperm) as Hagree.
  assert (map snd (map (keyed_by key) descs) = descs) as Hsnd.
  { rewrite map_map. simpl. apply map_id. }
  split; [reflexivity|]. split; [|split].
  - rewrite <- Hsnd at 1. apply Permutation_map. exact Hperm.
  - intros p. rewrite <- (filter_map_snd key s p Hagree), Hfil.
    rewrite (filter_map_snd key _ p), Hsnd; [reflexivity|].
    apply (keyed_by_agrees key descs). reflexivity.
  - apply Sorted_map_snd; assumption.
Qed.

Lemma schemas_getitem_absent schemas ds_name e :
  schemas_getitem schemas ds_name = Raise e ->
  e = KeyError ds_name /\ ~ In ds_name (keys schemas).
Proof.
  induction schemas as [|[k v] rest IH]; simpl.
  - intros [= <-]. auto.
  - destruct (String.eqb_spec k ds_name) as [->|Hne]; [discriminate|].
    intros H. destruct (IH H) as [-> Hnin]. split; [reflexivity|].
    intros [Heq|Hin]; auto.
Qed.

Lemma schemas_getitem_present schemas ds_name descs :
  schemas_getitem schemas ds_name = Ok descs -> In ds_name (keys schemas).
Proof.
  induction schemas as [|[k v] rest IH]; simpl; [discriminate|].
  destruct (String.eqb_spec k ds_name) as [->|Hne]; auto.
Qed.

(** The outcomes of the [try] block on a catalog with typed sort keys, in
    the order in which the block evaluates. *)
Lemma get_column_names_try_cases schemas ds_name key :
  (forall descs, schemas_getitem schemas ds_name = Ok descs ->
                 typed_sort_key key descs) ->
  (get_column_names_try schemas ds_name key = Raise (KeyError ds_name)
   /\ ~ In ds_name (keys schemas))
  \/ (exists descs, schemas_getitem schemas ds_name = Ok descs /\
        ((get_column_names_try schemas ds_name key = Raise (KeyError key)
          /\ Exists (lacks key) descs)
         \/ (get_column_names_try schemas ds_name key = Raise (KeyError column_name)
             /\ Forall (has_int key) descs /\ Exists (lacks column_name) descs)
         \/ (exists names, get_column_names_try schemas ds_name key = Ok names
             /\ Forall (has_int key) descs
             /\ ~ Exists (lacks column_name) descs))).
Proof.
  intros Htyped. unfold get_column_names_try.
  destruct (schemas_getitem schemas ds_name) as [descs|e] eqn:Hds.
  - right. exists descs. split; [reflexivity|]. simpl.
    specialize (Htyped descs eq_refl).
    destruct (decide (Exists (lacks key) descs)) as [Hex|Hnex].
    + left. split; [|assumption]. unfold sorted.
      rewrite (rmap_first_raise _ descs (KeyError key)); [reflexivity| |].
      * clear. induction descs; constructor; auto.
        unfold getitem. destruct (a !! key); simpl; eauto.
      * eapply Exists_impl; [exact Hex|]. intros d Hd. simpl.
        unfold getitem. rewrite Hd. reflexivity.
    + right.
      assert (Forall (has_int key) descs) as Hint.
      { apply Forall_forall. intros d Hd. unfold has_int.
        destruct (d !! key) as [v|] eqn:Hv.
        - unfold typed_sort_key in Htyped. rewrite Forall_forall in Htyped.
          destruct (Htyped d Hd v Hv) as [z ->]. eauto.
        - exfalso. apply Hnex. apply Exists_exists. eauto. }
      destruct (sorted_by_int_key key descs Hint) as (sd & -> & Hperm & _).
      simpl.
      destruct (decide (Exists (lacks column_name) descs)) as [Hex'|Hnex'].
      * left. split; [|split; assumption].
        apply rmap_first_raise.
        -- clear. induction sd; constructor; auto.
           unfold getitem. destruct (a !! column_name); eauto.
        -- rewrite <- Hperm. eapply Exists_impl; [exact Hex'|].
           intros d Hd. unfold getitem. rewrite Hd. reflexivity.
      * right. exists (map name_of sd). split; [|split; assumption].
        apply rmap_map. rewrite <- Hperm.
        apply Forall_forall. intros d Hd. unfold getitem, name_of.
        destruct (d !! column_name) eqn:Hn; [reflexivity|].
        exfalso. apply Hnex'. apply Exists_exists. eauto.
  - left. simpl. apply schemas_getitem_absent in Hds as [-> Hnin]. auto.
Qed.

Lemma has_int_not_lacks key (descs : list descriptor) :
  Forall (has_int key) descs -> ~ Exists (lacks key) descs.
Proof.
  intros Hall Hex. apply Exists_exists in Hex as (d & Hd & Hl).
  rewrite Forall_forall in Hall. destruct (Hall d Hd) as [z Hz].
  unfold lacks in Hl. congruence.
Qed.

(** ** C8 *)

(** C8 (as the code has it). On a catalog whose sort keys are integers,
    the Column Resolver raises the missing-field error (KeyError) exactly
    when the dataset is absent from the catalog, or a descriptor of the
    dataset lacks the sort key, or a descriptor lacks column_name. The
    error carries the offending key (the dataset name, the sort key, or
    column_name), it is logged once, no other exception is raised, and
    there is no result beside the error. *)
Theorem get_column_names_key_error (schemas : catalog) (ds_name key : string) :
  (forall descs, schemas_getitem schemas ds_name = Ok descs ->
                 typed_sort_key key descs) ->
  let r := get_column_names schemas ds_name key in
  ((exists k, snd r = Raise (KeyError k)) <->
   (~ In ds_name (keys schemas)
    \/ exists descs, schemas_getitem schemas ds_name = Ok descs
                     /\ (Exists (lacks key) descs
                         \/ Exists (lacks column_name) descs)))
  /\ (forall k, snd r = Raise (KeyError k) ->
        fst r = [(ERROR, EvMalformedSchema ds_name key (KeyError k))]
        /\ ((k = ds_name /\ ~ In ds_name (keys schemas))
            \/ exists descs, schemas_getitem schemas ds_name = Ok descs
                 /\ ((k = key /\ Exists (lacks key) descs)
                     \/ (k = column_name /\ Exists (lacks column_name) descs))))
  /\ (forall e, snd r = Raise e -> exists k, e = KeyError k).
Proof.
  intros Htyped. cbv zeta. unfold get_column_names.
  destruct (get_column_names_try_cases schemas ds_name key Htyped)
    as [[Htry Habs] | (descs & Hds & [[Htry Hex] | [(Htry & Hint & Hex)
                                                   | (names & Htry & Hint & Hnex)]])];
    rewrite Htry; simpl.
  - split; [|split].
    + split; eauto.
    + intros k [= <-]. split; [reflexivity|]. left. auto.
    + intros e [= <-]. eauto.
  - split; [|split].
    + split; eauto.
    + intros k [= <-]. split; [reflexivity|]. right. eauto.
    + intros e [= <-]. eauto.
  - split; [|split].
    + split; eauto.
    + intros k [= <-]. split; [reflexivity|]. right. eauto.
    + intros e [= <-]. eauto.
  - split; [|split].
    + split; [intros [k Hk]; discriminate|].
      intros [Habs | (descs' & Hds' & [Hex|Hex])].
      * exfalso. apply Habs. eapply schemas_getitem_present, Hds.
      * exfalso. rewrite Hds in Hds'. injection Hds' as <-.
        eapply has_int_not_lacks; eassumption.
      * exfalso. rewrite Hds in Hds'. injection Hds' as <-. auto.
    + intros k Hk. discriminate.
    + intros e He. discriminate.
Qed.

Lemma get_column_names_key_error_witness :
  get_column_names nameless_catalog "t" column_position
  = ([(ERROR, EvMalformedSchema "t" column_position (KeyError column_name))],
     Raise (KeyError column_name))
  /\ ((exists k, snd (get_column_names nameless_catalog "t" column_position)
                 = Raise (KeyError k)) <->
      (~ In "t" (keys nameless_catalog)
       \/ exists descs, schemas_getitem nameless_catalog "t" = Ok descs
                        /\ (Exists (lacks column_position) descs
                            \/ Exists (lacks column_name) descs))).
Proof.
  split; [vm_compute; reflexivity|].
  refine (proj1 (get_column_names_key_error nameless_catalog "t" column_position _)).
  intros descs H. simpl in H. injection H as <-.
  repeat constructor. intros v Hv. vm_compute in Hv. injection Hv as <-. eauto.
Defined.

(** C8 (as stated) fails when the positions cannot be compared: in
    [mixed_nameless_catalog] the dataset is present and a descriptor
    lacks column_name, yet the Column Resolver raises the TypeError of
    the sort, not the missing-field error, and logs nothing. *)
Lemma get_column_names_type_error :
  In "t" (keys mixed_nameless_catalog)
  /\ (exists descs, schemas_getitem mixed_nameless_catalog "t" = Ok descs
                    /\ Exists (lacks column_name) descs)
  /\ get_column_names mixed_nameless_catalog "t" column_position
     = ([], Raise TypeError)
  /\ ~ (exists k, snd (get_column_names mixed_nameless_catalog "t"
                         column_position) = Raise (KeyError k)).
Proof.
  split; [left; reflexivity|]. split; [|split].
  - eexists. split; [reflexivity|]. apply Exists_cons_hd. reflexivity.
  - vm_compute. reflexivity.
  - intros [k Hk]. vm_compute in Hk. discriminate.
Qed.

(** ** C4 *)

Lemma StronglySorted_le_lt (l : list Z) :
  StronglySorted Z.le l -> NoDup l -> StronglySorted Z.lt l.
Proof.
  induction 1 as [|a l Hs IH Hall]; intros Hnd; constructor.
  - apply IH. apply NoDup_cons in Hnd. tauto.
  - apply NoDup_cons in Hnd as [Hnin _].
    rewrite Forall_forall in *. intros b Hb.
    specialize (Hall b Hb). assert (a <> b) by (intros ->; auto). lia.
Qed.

(** C4 (as the code has it). For a dataset present in the catalog whose
    descriptors are valid, the Column Resolver returns the column names
    in ascending order of column_position, descriptors at the same
    position keeping their catalog order; the order is strictly ascending
    when the positions are pairwise distinct. *)
Theorem get_column_names_ascending (schemas : catalog) (ds_name : string)
    (descs : list descriptor) :
  schemas_getitem schemas ds_name = Ok descs ->
  Forall valid_descriptor descs ->
  exists names,
    get_column_names schemas ds_name column_position = ([], Ok names)
    /\ resolved_stably descs names
    /\ (NoDup (map position_of descs) -> resolved_in_order Z.lt descs names).
Proof.
  intros Hds Hvalid.
  assert (Forall (has_int column_position) descs) as Hint.
  { eapply Forall_impl; [exact Hvalid|]. intros d [H _]. exact H. }
  destruct (sorted_by_int_key column_position descs Hint)
    as (sd & Hsorted & Hperm & Hfil & Hsort).
  apply Sorted_StronglySorted in Hsort; [|intros a b c; apply Z.le_trans].
  exists (map name_of sd). split; [|split].
  - unfold get_column_names, get_column_names_try.
    rewrite Hds. simpl. rewrite Hsorted. simpl.
    rewrite (rmap_map _ name_of); [reflexivity|].
    rewrite <- Hperm. eapply Forall_impl; [exact Hvalid|].
    intros d [_ [s Hs]]. unfold getitem, name_of. rewrite Hs. reflexivity.
  - exists sd. auto.
  - intros Hnd. exists sd. split; [assumption|]. split; [reflexivity|].
    apply StronglySorted_le_lt; [assumption|].
    rewrite <- Hperm. assumption.
Qed.

Lemma get_column_names_ascending_witness :
  exists names,
    get_column_names orders_catalog "orders" column_position = ([], Ok names)
    /\ resolved_stably
         [mk_descriptor "id" 2; mk_descriptor "name" 0; mk_descriptor "amount" 1]
         names
    /\ (NoDup (map position_of
                 [mk_descriptor "id" 2; mk_descriptor "name" 0;
                  mk_descriptor "amount" 1]) ->
        resolved_in_order Z.lt
          [mk_descriptor "id" 2; mk_descriptor "name" 0; mk_descriptor "amount" 1]
          names).
Proof.
  apply (get_column_names_ascending orders_catalog "orders").
  - reflexivity.
  - repeat constructor; eexists; vm_compute; reflexivity.
Defined.

(** C4 (as stated) fails on a tie: the catalog [tie_catalog] is valid, its
    dataset resolves to the names a, b, and no ordering of its two
    descriptors has strictly ascending positions. *)
Lemma tie_not_strictly_ascending :
  schemas_getitem tie_catalog "t" = Ok tie_descs
  /\ Forall valid_descriptor tie_descs
  /\ snd (get_column_names tie_catalog "t" column_position)
     = Ok [VStr "a"; VStr "b"]
  /\ ~ resolved_in_order Z.lt tie_descs [VStr "a"; VStr "b"].
Proof.
  split; [reflexivity|]. split; [|split].
  - repeat constructor; eexists; vm_compute; reflexivity.
  - vm_compute. reflexivity.
  - intros (sd & Hperm & _ & Hs).
    apply (Permutation_map position_of) in Hperm.
    change (map position_of tie_descs) with [1; 1] in Hperm.
    apply Permutation_length_2_inv in Hperm as [Heq|Heq]; rewrite Heq in Hs;
      inversion Hs as [|? ? _ Hall]; subst;
      inversion Hall as [|? ? Hlt _]; subst; lia.
Qed.

(** ** Column types *)

Lemma kind_of_word f : kind_of f = KStr -> is_word f = true.
Proof.
  unfold kind_of. destruct (int_literal f); [discriminate|].
  destruct (is_word f); [reflexivity | discriminate].
Qed.

Lemma kind_of_other f : kind_of f = KOther -> is_word f = false.
Proof.
  unfold kind_of. destruct (int_literal f); [discriminate|].
  destruct (is_word f); [discriminate | reflexivity].
Qed.

(** The type inferred for a column whose fields are all of one kind. *)
Lemma column_kind_uniform (k : kind) (fs : list string) :
  fs <> [] -> Forall (fun f => kind_of f = k) fs -> column_kind fs = k.
Proof.
  intros Hne Hall. unfold column_kind. destruct k.
  - replace (forallb (fun f => bool_decide (kind_of f = KInt)) fs) with true;
      [reflexivity|].
    symmetry. apply forallb_forall. intros f Hf.
    apply bool_decide_eq_true_2.
    rewrite List.Forall_forall in Hall. apply Hall, Hf.
  - destruct fs as [|f0 fs]; [congruence|].
    apply Forall_cons in Hall as [H0 _]. cbn [forallb existsb].
    rewrite H0. rewrite (kind_of_word f0 H0). reflexivity.
  - destruct fs as [|f0 fs]; [congruence|].
    pose proof Hall as Hall'. apply Forall_cons in Hall' as [H0 _].
    cbn [forallb]. rewrite H0. cbn [bool_decide decide_rel andb].
    replace (bool_decide (KOther = KInt)) with false by reflexivity.
    cbn [andb].
    replace (existsb is_word (f0 :: fs)) with false; [reflexivity|].
    symmetry. clear H0 Hne. induction Hall as [|f fs' Hf _ IH]; [reflexivity|].
    cbn [existsb]. rewrite (kind_of_other f Hf), IH. reflexivity.
Qed.

Lemma uniform_column (kinds : list kind) (rows : list (list string)) j k :
  uniform kinds rows -> kinds !! j = Some k ->
  Forall (fun f => kind_of f = k) (column j rows).
Proof.
  intros Hu Hk. unfold column. apply List.Forall_map.
  eapply Forall_impl; [exact Hu|]. intros r Hr. cbn beta.
  destruct (Forall2_lookup_l _ _ _ _ _ Hr Hk) as (f & Hf & _ & Hkf).
  rewrite (nth_lookup_Some _ _ _ _ Hf). exact Hkf.
Qed.

Lemma dtypes_uniform (cols : list pyval) (kinds : list kind)
    (rows : list (list string)) :
  length kinds = length cols -> rows <> [] -> uniform kinds rows ->
  dtypes {| df_columns := cols; df_rows := rows |} = kinds.
Proof.
  intros Hlen Hne Hu. unfold dtypes. cbn [df_columns df_rows]. rewrite <- Hlen.
  assert (forall n a, (a + n = length kinds)%nat ->
            map (fun j => column_kind (column j rows)) (seq a n) = drop a kinds)
    as Hgen.
  { induction n as [|n IH]; intros a Ha.
    - rewrite drop_ge by lia. reflexivity.
    - destruct (lookup_lt_is_Some_2 kinds a ltac:(lia)) as [k Hk].
      cbn [seq map]. rewrite (drop_S _ _ _ Hk), IH by lia. f_equal.
      apply column_kind_uniform.
      + unfold column. destruct rows; [congruence | discriminate].
      + eapply uniform_column; eassumption. }
  rewrite (Hgen (length kinds) 0%nat) by lia. reflexivity.
Qed.

Lemma cells_uniform (kinds : list kind) (r : list string) :
  Forall2 (fun k f => k <> KOther /\ kind_of f = k) kinds r ->
  zip_with cell_in kinds r = map cell_of r.
Proof.
  induction 1 as [|k f kinds r [_ Hk] _ IH]; [reflexivity|].
  cbn [zip_with map]. rewrite IH. unfold cell_of. rewrite Hk. reflexivity.
Qed.

(** The values of a frame with uniform columns: every field has the
    value it has on its own. *)
Lemma values_uniform (cols : list pyval) (kinds : list kind)
    (rows : list (list string)) :
  length kinds = length cols -> uniform kinds rows ->
  values {| df_columns := cols; df_rows := rows |} = map (map cell_of) rows.
Proof.
  intros Hlen Hu. unfold values. cbn [df_rows].
  destruct rows as [|r0 rows0] eqn:Er; [reflexivity|]. rewrite <- Er in *.
  rewrite (dtypes_uniform cols kinds rows Hlen) by (subst; auto; discriminate).
  apply List.map_ext_in. intros r Hr.
  apply cells_uniform.
  unfold uniform in Hu. rewrite List.Forall_forall in Hu. apply Hu, Hr.
Qed.

Lemma values_chunks (cols : list pyval) (kinds : list kind)
    (chunks : list (nat * dataframe)) :
  length kinds = length cols ->
  Forall (fun x => df_columns (snd x) = cols) chunks ->
  uniform kinds (concat (map (fun x => df_rows (snd x)) chunks)) ->
  concat (map (fun x => values (snd x)) chunks)
  = map (map cell_of) (concat (map (fun x => df_rows (snd x)) chunks)).
Proof.
  intros Hlen Hcols. induction Hcols as [|x chunks Hx _ IH]; intros Hu;
    [reflexivity|].
  cbn [map concat] in *. apply Forall_app in Hu as [Hu1 Hu2].
  rewrite List.map_app, <- (IH Hu2). f_equal.
  destruct x as [i [c r]]. cbn [snd df_columns df_rows] in *. subst c.
  apply (values_uniform cols kinds r Hlen Hu1).
Qed.

(** The rows a frame with uniform columns sends to the database. *)
Lemma rows_of_uniform (cols : list pyval) (kinds : list kind)
    (rows : list (list string)) :
  length kinds = length cols -> uniform kinds rows ->
  rows_of {| df_columns := cols; df_rows := rows |}
  = map (fun r => zip cols (map cell_of r)) rows.
Proof.
  intros Hlen Hu. unfold rows_of.
  rewrite (values_uniform cols kinds rows Hlen Hu). cbn [df_columns].
  rewrite List.map_map. reflexivity.
Qed.

(** ** Chunking *)

Lemma ceil_div_small (R c : nat) : (0 < R <= c)%nat -> ceil_div R c = 1%nat.
Proof.
  intros H. unfold ceil_div. symmetry.
  apply Nat.div_unique with (r := (R - 1)%nat); lia.
Qed.

Lemma ceil_div_step (R c : nat) :
  (0 < c < R)%nat -> ceil_div R c = S (ceil_div (R - c) c).
Proof.
  intros H. unfold ceil_div.
  replace (R + c - 1)%nat with ((R - c + c - 1) + 1 * c)%nat by lia.
  rewrite Nat.div_add by lia. lia.
Qed.

Lemma last_size_small (R c : nat) : (0 < R <= c)%nat -> last_size R c = R.
Proof.
  intros H. unfold last_size.
  destruct (Nat.eq_dec R c) as [->|Hne].
  - rewrite Nat.Div0.mod_same. reflexivity.
  - rewrite Nat.mod_small by lia.
    destruct (Nat.eqb_spec R 0); [lia | reflexivity].
Qed.

Lemma last_size_step (R c : nat) :
  (0 < c < R)%nat -> last_size R c = last_size (R - c) c.
Proof.
  intros H. unfold last_size.
  assert (R mod c = (R - c) mod c)%nat as ->; [|reflexivity].
  replace R with ((R - c) + 1 * c)%nat at 1 by lia.
  apply Nat.Div0.mod_add.
Qed.

Lemma read_rows (rows : list (list string)) :
  rmap read_line (map Row rows) = Ok rows.
Proof.
  induction rows as [|r rows IH]; simpl; [reflexivity|].
  rewrite IH. reflexivity.
Qed.

Lemma read_rows_bad (good : list (list string)) (e : exn)
    (tail : list data_line) :
  rmap read_line (map Row good ++ Bad e :: tail) = Raise e.
Proof.
  induction good as [|r good IH]; cbn [map app rmap read_line rbind];
    [reflexivity|].
  rewrite IH. reflexivity.
Qed.

Lemma gen_end_except csv_path e :
  gen_end (read_csv_except csv_path e) = read_csv_except csv_path e.
Proof. destruct e; reflexivity. Qed.

Lemma gen_chunks_except csv_path e :
  gen_chunks (read_csv_except csv_path e) = [].
Proof. destruct e; reflexivity. Qed.

Section Chunks.
Variables (csv_path : string) (names : list pyval) (c : nat).
Hypothesis c_pos : (0 < c)%nat.

Lemma enumerate_reader_done fuel idx :
  enumerate_reader fuel csv_path false idx (reader_on names c []) = GReturn.
Proof. destruct fuel; reflexivity. Qed.

Lemma enumerate_reader_chunks fuel (l : list (list string)) idx first :
  (length l < fuel)%nat -> l <> [] ->
  let g := enumerate_reader fuel csv_path first idx
             (reader_on names c (map Row l)) in
  let n := ceil_div (length l) c in
  gen_raises g = None
  /\ length (gen_chunks g) = n
  /\ (forall i, (i < n)%nat ->
        exists df, gen_chunks g !! i = Some ((idx + i)%nat, df)
                   /\ df_columns df = names
                   /\ shape0 df = if (i <? n - 1)%nat then c
                                  else last_size (length l) c)
  /\ concat (map (fun x => df_rows (snd x)) (gen_chunks g)) = l.
Proof.
  revert l idx first. induction fuel as [|fuel IH]; intros l idx first Hlen Hne;
    [lia|].
  cbv zeta. cbn [enumerate_reader]. unfold next_chunk.
  cbn [reader_on r_pending r_names r_chunksize].
  destruct l as [|row0 l0] eqn:El; [congruence|]. cbn [map].
  change (Row row0 :: map Row l0) with (map Row (row0 :: l0)).
  rewrite <- El in *.
  assert (Hlpos : (0 < length l)%nat) by (rewrite El; simpl; lia).
  rewrite firstn_map, skipn_map, read_rows.
  cbn [rbind].
  destruct (le_lt_dec (length l) c) as [Hsmall|Hbig].
  - (* the last chunk *)
    rewrite drop_ge by lia. rewrite take_ge by lia. cbn [map].
    change ({| r_names := names; r_chunksize := c; r_pending := [] |})
      with (reader_on names c []).
    rewrite enumerate_reader_done. cbn [gen_raises gen_chunks length map concat snd].
    rewrite ceil_div_small by lia.
    split; [reflexivity|]. split; [reflexivity|]. split.
    + intros i Hi. assert (i = 0)%nat as -> by lia.
      eexists. split; [rewrite Nat.add_0_r; reflexivity|].
      split; [reflexivity|]. cbn. unfold shape0. cbn.
      rewrite last_size_small by lia. reflexivity.
    + cbn. rewrite app_nil_r. reflexivity.
  - (* a full chunk, and more to come *)
    assert (Hdrop : drop c l <> []).
    { intros Hd. apply (f_equal length) in Hd. rewrite length_drop in Hd.
      simpl in Hd. lia. }
    specialize (IH (drop c l) (S idx) false).
    rewrite length_drop in IH.
    destruct IH as (Hr & Hn & Hsz & Hcat); [lia | exact Hdrop |].
    change ({| r_names := names; r_chunksize := c;
               r_pending := map Row (drop c l) |})
      with (reader_on names c (map Row (drop c l))).
    cbn [gen_raises gen_chunks length map concat snd df_rows].
    rewrite (ceil_div_step (length l) c) by lia.
    split; [exact Hr|]. split; [rewrite Hn; reflexivity|]. split.
    + intros i Hi. destruct i as [|j].
      * eexists. split; [rewrite Nat.add_0_r; reflexivity|].
        split; [reflexivity|]. unfold shape0. cbn [df_rows].
        rewrite length_take.
        assert (0 < ceil_div (length l - c) c)%nat.
        { unfold ceil_div. apply Nat.div_str_pos. lia. }
        destruct (Nat.ltb_spec 0 (S (ceil_div (length l - c) c) - 1)); lia.
      * destruct (Hsz j ltac:(lia)) as (df & Hlk & Hcols & Hsize).
        exists df. split; [|split; [exact Hcols|]].
        -- replace (idx + S j)%nat with (S idx + j)%nat by lia. exact Hlk.
        -- rewrite Hsize. rewrite <- (last_size_step (length l) c) by lia.
           replace (S (ceil_div (length l - c) c) - 1)%nat
             with (S (ceil_div (length l - c) c - 1)).
           2:{ assert (0 < ceil_div (length l - c) c)%nat; [|lia].
               unfold ceil_div. apply Nat.div_str_pos. lia. }
           reflexivity.
    + rewrite Hcat. rewrite take_drop. reflexivity.
Qed.

(** A line at which the library gives up, after the rows [good]: the
    full chunks before the chunk of that line are yielded, then the
    exception goes through the handlers of [read_csv]. *)
Lemma enumerate_reader_gives_up fuel (good : list (list string)) (e : exn)
    (rest : list data_line) idx first :
  (length good + S (length rest) < fuel)%nat ->
  let g := enumerate_reader fuel csv_path first idx
             (reader_on names c (map Row good ++ Bad e :: rest)) in
  let k := (length good / c)%nat in
  gen_end g = read_csv_except csv_path e
  /\ length (gen_chunks g) = k
  /\ Forall (fun x => df_columns (snd x) = names /\ shape0 (snd x) = c)
            (gen_chunks g)
  /\ concat (map (fun x => df_rows (snd x)) (gen_chunks g))
     = take (k * c) good.
Proof.
  revert good idx first.
  induction fuel as [|fuel IH]; intros good idx first Hlen; [lia|].
  cbv zeta. cbn [enumerate_reader]. unfold next_chunk.
  cbn [reader_on r_pending r_names r_chunksize].
  destruct (map Row good ++ Bad e :: rest)%list as [|line0 l0] eqn:El;
    [destruct good; discriminate|]. rewrite <- El in *.
  destruct (le_lt_dec c (length good)) as [Hfull|Hshort].
  - (* a full chunk of rows comes first *)
    rewrite take_app_le, drop_app_le by (rewrite length_map; lia).
    rewrite firstn_map, skipn_map, read_rows.
    cbn [rbind].
    specialize (IH (drop c good) (S idx) false).
    destruct IH as (Hr & Hn & Hsz & Hcat).
    { rewrite length_drop. lia. }
    change ({| r_names := names; r_chunksize := c;
               r_pending := map Row (drop c good) ++ Bad e :: rest |})
      with (reader_on names c (map Row (drop c good) ++ Bad e :: rest)).
    cbn [gen_end gen_chunks length map concat snd df_rows].
    rewrite length_drop in Hn, Hcat.
    assert (length good / c = S ((length good - c) / c))%nat as Hk.
    { replace (length good) with ((length good - c) + 1 * c)%nat at 1 by lia.
      rewrite Nat.div_add by lia. lia. }
    rewrite Hk. split; [exact Hr|]. split; [rewrite Hn; reflexivity|]. split.
    + constructor; [|exact Hsz]. unfold shape0. cbn.
      rewrite length_take. split; [reflexivity | lia].
    + rewrite Hcat, take_take_drop. reflexivity.
  - (* the line is in the first chunk *)
    rewrite Nat.div_small by lia.
    replace (take c (map Row good ++ Bad e :: rest)%list)
      with (map Row good ++ Bad e :: take (c - length good - 1) rest)%list.
    2:{ rewrite take_app, length_map. rewrite (take_ge (map Row good))
          by (rewrite length_map; lia).
        destruct (c - length good)%nat as [|m] eqn:Hm; [lia|].
        simpl. rewrite Nat.sub_0_r. reflexivity. }
    rewrite read_rows_bad.
    cbn [rbind]. rewrite gen_end_except, gen_chunks_except.
    cbn. repeat split; constructor.
Qed.
End Chunks.

(** ** C2 *)

(** C2 (as the code has it). For a file that the parsing library reads
    without failure as R >= 1 rows, each with one field per resolved
    column name, the names being pairwise distinct, and a chunk size
    C > 0, the Chunked File Reader ends without an exception after
    yielding exactly ceil(R/C) pairs, the i-th with index i and the
    resolved columns; every chunk has C rows except the last, which has
    R mod C rows (C if R mod C = 0); and the rows of the chunks,
    concatenated in index order, are the rows of the file in their order.
    For a file without rows the reader yields one pair: index 0 and a
    chunk with the columns and no row. When each column of the file
    holds integer literals throughout or words throughout, the values of
    the chunks, concatenated, are these integers and strings row by row,
    whatever the chunk size. *)
Theorem read_csv_chunks (E : env) (csv_path : string) (schema : catalog)
    (ds_name : string) (chunksize : Z) (cols : list pyval)
    (rows : list (list string)) :
  snd (get_column_names schema ds_name column_position) = Ok cols ->
  NoDup cols ->
  e_files E !! csv_path = Some (Text (map Row rows)) ->
  well_formed cols rows ->
  (1 <= chunksize) ->
  let g := read_csv E csv_path schema ds_name chunksize in
  let R := length rows in
  let c := Z.to_nat chunksize in
  let n := ceil_div R c in
  (rows <> [] ->
   gen_raises g = None
   /\ length (gen_chunks g) = n
   /\ (forall i, (i < n)%nat ->
         exists df, gen_chunks g !! i = Some (i, df)
                    /\ df_columns df = cols
                    /\ shape0 df = if (i <? n - 1)%nat then c else last_size R c)
   /\ concat (map (fun x => df_rows (snd x)) (gen_chunks g)) = rows)
  /\ (rows = [] ->
      g = GYield 0 {| df_columns := cols; df_rows := [] |} GReturn)
  /\ (forall kinds,
        length kinds = length cols -> uniform kinds rows ->
        concat (map (fun x => values (snd x)) (gen_chunks g))
        = map (map cell_of) rows).
Proof.
  intros Hcols Hnd Hfile Hwf Hc. cbv zeta. unfold read_csv.
  destruct (get_column_names schema ds_name column_position) as [logs r].
  simpl in Hcols. subst r.
  unfold pd_read_csv.
  assert ((chunksize <? 1) = false) as -> by lia.
  rewrite (bool_decide_eq_true_2 _ Hnd), Hfile. cbn [negb r_pending].
  destruct rows as [|row0 rest] eqn:Hrows.
  - split; [congruence|]. split; [reflexivity|]. intros kinds _ _. reflexivity.
  - rewrite <- Hrows in *. rewrite length_map.
    destruct (enumerate_reader_chunks csv_path cols (Z.to_nat chunksize)
                ltac:(lia) (2 + length rows) rows 0%nat true)
      as (Hr & Hn & Hsz & Hcat); [lia | rewrite Hrows; discriminate |].
    unfold reader_on in Hr, Hn, Hsz, Hcat.
    split; [intros _; auto|].
    split; [intros Hnil; rewrite Hnil in Hrows; discriminate|].
    intros kinds Hlen Hu.
    rewrite (values_chunks cols kinds), Hcat; [reflexivity | exact Hlen | |].
    + apply Forall_lookup_2. intros i x Hx.
      destruct (Hsz i) as (df & Hlk & Hdf & _).
      { rewrite <- Hn. eapply lookup_lt_Some, Hx. }
      rewrite Hx in Hlk. injection Hlk as ->. exact Hdf.
    + rewrite Hcat. exact Hu.
Qed.

Lemma read_csv_chunks_witness :
  gen_raises (read_csv orders_env "/data/orders/part-00000" orders_catalog
                "orders" 1) = None
  /\ length (gen_chunks (read_csv orders_env "/data/orders/part-00000"
                           orders_catalog "orders" 1)) = 2%nat
  /\ concat (map (fun x => df_rows (snd x))
               (gen_chunks (read_csv orders_env "/data/orders/part-00000"
                              orders_catalog "orders" 1)))
     = [["a"; "1"; "100"]; ["b"; "2"; "200"]]
  /\ concat (map (fun x => values (snd x))
               (gen_chunks (read_csv orders_env "/data/orders/part-00000"
                              orders_catalog "orders" 1)))
     = [[CStr "a"; CInt 1; CInt 100]; [CStr "b"; CInt 2; CInt 200]].
Proof.
  pose proof (read_csv_chunks orders_env "/data/orders/part-00000" orders_catalog
                "orders" 1 [VStr "name"; VStr "amount"; VStr "id"]
                [["a"; "1"; "100"]; ["b"; "2"; "200"]]) as H.
  cbv zeta in H.
  destruct H as (H & _ & Hv).
  - vm_compute. reflexivity.
  - apply (bool_decide_unpack _). vm_compute. exact I.
  - vm_compute. reflexivity.
  - repeat constructor.
  - lia.
  - destruct H as (H1 & H2 & _ & H4); [discriminate|].
    split; [exact H1|]. split; [exact H2|]. split; [exact H4|].
    apply (Hv [KStr; KInt; KInt]); [reflexivity|].
    repeat constructor; discriminate.
Defined.

(** C2 (as stated) fails on a file without rows: for R = 0 the claim
    promises ceil(0/C) = 0 pairs, but the first read of the parsing
    library returns a frame with the columns and no row, which the reader
    yields with index 0. *)
Lemma read_csv_empty_file :
  e_files empty_part_env !! "/data/orders/part-00000" = Some (Text [])
  /\ ceil_div 0 (Z.to_nat 10000) = 0%nat
  /\ read_csv empty_part_env "/data/orders/part-00000" orders_catalog "orders" 10000
     = GYield 0 {| df_columns := [VStr "name"; VStr "amount"; VStr "id"];
                   df_rows := [] |} GReturn
  /\ length (gen_chunks (read_csv empty_part_env "/data/orders/part-00000"
                           orders_catalog "orders" 10000))
     <> ceil_div 0 (Z.to_nat 10000).
Proof.
  split; [vm_compute; reflexivity|].
  split; [vm_compute; reflexivity|].
  split; [vm_compute; reflexivity|].
  vm_compute. discriminate.
Qed.

(** ** C10 *)

(** C10. Inside the Chunked File Reader every exception other than
    file-not-found and the parse error is re-raised as the plain generic
    exception, after a CRITICAL record. (1) The last handler of the
    reader does so. (2) Whatever the column resolution raises, the
    missing-field error included, leaves the reader as the generic
    exception before any chunk. (3) The reader never ends with an
    exception other than file-not-found, the parse error or the generic
    one. (4) An exception of the parsing library when the reader is
    created (a file that may not be read, a chunk size below 1, duplicate
    names) leaves as the generic exception before any chunk. (5) An
    exception of the parsing library during the iteration, at a line
    that comes after the rows [good], leaves as the generic exception
    after the length good / C full chunks before that line's chunk. *)
Theorem read_csv_generic_exception (E : env) (csv_path : string)
    (schema : catalog) (ds_name : string) (chunksize : Z) :
  (forall e, (forall p, e <> FileNotFoundError p) -> e <> ParserError ->
     read_csv_except csv_path e
     = GRaise [(CRITICAL, EvUnhandledRead csv_path e)] GenericException)
  /\ (forall e,
        snd (get_column_names schema ds_name column_position) = Raise e ->
        gen_chunks (read_csv E csv_path schema ds_name chunksize) = []
        /\ gen_raises (read_csv E csv_path schema ds_name chunksize)
           = Some GenericException)
  /\ (forall e,
        gen_raises (read_csv E csv_path schema ds_name chunksize) = Some e ->
        e = FileNotFoundError csv_path \/ e = ParserError \/ e = GenericException)
  /\ (forall cols e,
        snd (get_column_names schema ds_name column_position) = Ok cols ->
        pd_read_csv E csv_path cols chunksize = Raise e ->
        (forall p, e <> FileNotFoundError p) -> e <> ParserError ->
        read_csv E csv_path schema ds_name chunksize
        = GRaise [(CRITICAL, EvUnhandledRead csv_path e)] GenericException)
  /\ (forall cols good e rest,
        snd (get_column_names schema ds_name column_position) = Ok cols ->
        NoDup cols ->
        (1 <= chunksize) ->
        e_files E !! csv_path = Some (Text (map Row good ++ Bad e :: rest)) ->
        (forall p, e <> FileNotFoundError p) -> e <> ParserError ->
        length (gen_chunks (read_csv E csv_path schema ds_name chunksize))
        = (length good / Z.to_nat chunksize)%nat
        /\ gen_end (read_csv E csv_path schema ds_name chunksize)
           = GRaise [(CRITICAL, EvUnhandledRead csv_path e)] GenericException).
Proof.
  assert (forall e, (forall p, e <> FileNotFoundError p) -> e <> ParserError ->
            read_csv_except csv_path e
            = GRaise [(CRITICAL, EvUnhandledRead csv_path e)] GenericException)
    as Hgeneric.
  { intros e Hfnf Hpe. destruct e; try reflexivity.
    - exfalso. eapply Hfnf. reflexivity.
    - congruence. }
  split; [exact Hgeneric|]. split; [|split; [|split]].
  - intros e He. unfold read_csv.
    unfold get_column_names in *.
    destruct (get_column_names_try schema ds_name column_position) as [c|e0] eqn:Ht.
    + simpl in He. discriminate.
    + apply get_column_names_try_raise in Ht as [[k ->]| ->]; simpl in *.
      * split; reflexivity.
      * split; reflexivity.
  - intros e. unfold read_csv.
    destruct (get_column_names schema ds_name column_position) as [logs [cols|e0]].
    + destruct (pd_read_csv E csv_path cols chunksize) as [rd|e1].
      * apply enumerate_reader_raises.
      * destruct (read_csv_except_raises csv_path e1) as (l & e'' & -> & He).
        simpl. intros [= <-]. exact He.
    + destruct (read_csv_except_raises csv_path e0) as (l & e'' & -> & He).
      simpl. intros [= <-]. exact He.
  - intros cols e Hcols Hopen Hfnf Hpe. unfold read_csv.
    destruct (get_column_names schema ds_name column_position) as [logs r].
    simpl in Hcols. subst r. rewrite Hopen. apply Hgeneric; assumption.
  - intros cols good e rest Hcols Hnd Hc Hfile Hfnf Hpe. unfold read_csv.
    destruct (get_column_names schema ds_name column_position) as [logs r].
    simpl in Hcols. subst r. unfold pd_read_csv.
    assert ((chunksize <? 1) = false) as -> by lia.
    rewrite (bool_decide_eq_true_2 _ Hnd), Hfile. cbn [negb r_pending].
    destruct (enumerate_reader_gives_up csv_path cols (Z.to_nat chunksize)
                ltac:(lia)
                (2 + length (map Row good ++ Bad e :: rest)) good e rest 0%nat true)
      as (Hend & Hn & _ & _).
    { rewrite length_app, length_map. simpl. lia. }
    unfold reader_on in Hend, Hn.
    split; [exact Hn|]. rewrite Hend. apply Hgeneric; assumption.
Qed.

Lemma read_csv_generic_exception_witness :
  read_csv_except "/data/orders/part-00000" (KeyError "column_name")
  = GRaise [(CRITICAL, EvUnhandledRead "/data/orders/part-00000"
                         (KeyError "column_name"))] GenericException
  /\ gen_raises (read_csv orders_env "/data/orders/part-00000" orders_catalog
                   "customers" 10000) = Some GenericException
  /\ read_csv undecodable_env "/data/orders/part-00000" orders_catalog "orders" 1
     = GRaise [(CRITICAL, EvUnhandledRead "/data/orders/part-00000"
                            (OtherError "PermissionError"))] GenericException
  /\ length (gen_chunks (read_csv undecodable_env "/data/orders/part-00001"
                           orders_catalog "orders" 1)) = 1%nat
  /\ gen_end (read_csv undecodable_env "/data/orders/part-00001" orders_catalog
                "orders" 1)
     = GRaise [(CRITICAL, EvUnhandledRead "/data/orders/part-00001"
                            (OtherError "UnicodeDecodeError"))] GenericException.
Proof.
  pose proof (read_csv_generic_exception orders_env "/data/orders/part-00000"
                orders_catalog "customers" 10000) as (H1 & H2 & _).
  pose proof (read_csv_generic_exception undecodable_env "/data/orders/part-00000"
                orders_catalog "orders" 1) as (_ & _ & _ & H4 & _).
  pose proof (read_csv_generic_exception undecodable_env "/data/orders/part-00001"
                orders_catalog "orders" 1) as (_ & _ & _ & _ & H5).
  split; [|split; [|split]].
  - apply H1; [intros p; discriminate | discriminate].
  - apply (H2 (KeyError "customers")). vm_compute. reflexivity.
  - apply (H4 [VStr "name"; VStr "amount"; VStr "id"]).
    + vm_compute. reflexivity.
    + vm_compute. reflexivity.
    + intros p. discriminate.
    + discriminate.
  - apply (H5 [VStr "name"; VStr "amount"; VStr "id"] [["a"; "1"; "100"]]
              (OtherError "UnicodeDecodeError") []).
    + vm_compute. reflexivity.
    + apply (bool_decide_unpack _). vm_compute. exact I.
    + lia.
    + vm_compute. reflexivity.
    + intros p. discriminate.
    + discriminate.
Defined.

(** ** The effect of the loops *)

Lemma failed_count_app l1 l2 :
  failed_count (l1 ++ l2) = (failed_count l1 + failed_count l2)%nat.
Proof. unfold failed_count. rewrite List.filter_app, length_app. reflexivity. Qed.

Lemma done_count_app l1 l2 :
  done_count (l1 ++ l2) = (done_count l1 + done_count l2)%nat.
Proof. unfold done_count. rewrite List.filter_app, length_app. reflexivity. Qed.

Lemma rejections_le E n k : (rejections E n k <= k)%nat.
Proof.
  revert n. induction k as [|k IH]; intros n; simpl; [lia|].
  specialize (IH (S n)). destruct (e_faults E !! n); lia.
Qed.

Lemma rejections_app E n k1 k2 :
  rejections E n (k1 + k2)
  = (rejections E n k1 + rejections E (n + k1) k2)%nat.
Proof.
  revert n. induction k1 as [|k1 IH]; intros n; simpl.
  - rewrite Nat.add_0_r. reflexivity.
  - rewrite IH. replace (S n + k1)%nat with (n + S k1)%nat by lia. lia.
Qed.

Lemma written_app E n dfs1 dfs2 :
  written E n (dfs1 ++ dfs2)
  = (written E n dfs1 ++ written E (n + length dfs1) dfs2)%list.
Proof.
  revert n. induction dfs1 as [|df dfs1 IH]; intros n; simpl.
  - rewrite Nat.add_0_r. reflexivity.
  - rewrite IH. replace (S n + length dfs1)%nat with (n + S (length dfs1))%nat by lia.
    rewrite app_assoc. reflexivity.
Qed.

Lemma loads_nil E tbl w w' :
  w_writes w' = w_writes w -> (forall t, table w' t = table w t) ->
  loads E tbl [] w w'.
Proof.
  intros Hw Ht. unfold loads. simpl. rewrite Hw, Ht, app_nil_r.
  repeat split; auto.
Qed.

Lemma loads_trans E tbl dfs1 dfs2 w w1 w2 :
  loads E tbl dfs1 w w1 -> loads E tbl dfs2 w1 w2 ->
  loads E tbl (dfs1 ++ dfs2) w w2.
Proof.
  intros (Hw1 & Ht1 & Ho1) (Hw2 & Ht2 & Ho2). unfold loads.
  rewrite length_app, written_app. split; [lia|]. split.
  - rewrite Ht2, Ht1, Hw1, app_assoc. reflexivity.
  - intros t Ht. rewrite Ho2, Ho1 by assumption. reflexivity.
Qed.

Lemma reports_nil E w w' log :
  w_writes w' = w_writes w -> w_log w' = (w_log w ++ log)%list ->
  failed_count log = 0%nat -> done_count log = 0%nat ->
  reports E 0 w w'.
Proof. intros _ Hl Hf Hd. exists log. simpl. auto. Qed.

Lemma reports_trans E k1 k2 w w1 w2 :
  w_writes w1 = (w_writes w + k1)%nat ->
  reports E k1 w w1 -> reports E k2 w1 w2 -> reports E (k1 + k2) w w2.
Proof.
  intros Hw (l1 & Hl1 & Hf1 & Hd1) (l2 & Hl2 & Hf2 & Hd2).
  exists (l1 ++ l2)%list. rewrite Hl2, Hl1, app_assoc.
  split; [reflexivity|].
  rewrite failed_count_app, done_count_app, rejections_app, Hf1, Hd1, Hf2, Hd2, Hw.
  pose proof (rejections_le E (w_writes w) k1).
  pose proof (rejections_le E (w_writes w + k1) k2).
  lia.
Qed.

(** One chunk, whatever the database decides. *)
Lemma load_chunk_effect E conn_url ds_name file idx df w :
  exists w', load_chunk E conn_url ds_name file idx df w = (Ok tt, w')
             /\ loads E (ds_name ++ "_test") [df] w w'
             /\ reports E 1 w w'.
Proof.
  destruct (e_faults E !! w_writes w) as [e|] eqn:Hf.
  - destruct (load_chunk_rejected E conn_url ds_name file idx df w e Hf)
      as (log & Heq & Hfc & Hdc).
    eexists. split; [exact Heq|]. split.
    + unfold loads, table. simpl. rewrite Hf. simpl. rewrite app_nil_r.
      repeat split; auto. lia.
    + exists log. simpl. rewrite Hf. simpl. auto.
  - eexists. split; [apply load_chunk_written; exact Hf|]. split.
    + unfold loads. simpl. rewrite Hf, app_nil_r. split; [lia|]. split.
      * apply table_insert_eq.
      * intros t Ht. unfold table. simpl. rewrite lookup_insert_ne by congruence.
        reflexivity.
    + eexists. simpl. split; [rewrite <- app_assoc; reflexivity|].
      rewrite Hf. simpl. split; reflexivity.
Qed.

Lemma emit_effect E tbl logs w :
  exists w', emit logs w = (Ok tt, w')
             /\ loads E tbl [] w w'
             /\ w_log w' = (w_log w ++ logs)%list
             /\ w_writes w' = w_writes w.
Proof.
  eexists. split; [reflexivity|]. split; [|split; reflexivity].
  apply loads_nil; reflexivity.
Qed.

(** The inner loop: every yielded chunk is attempted, whatever happened
    to the chunks before it; an exception of the generator ends the loop
    and is raised. *)
Lemma for_gen_effect E conn_url ds_name file g w :
  exists w',
    for_gen g (load_chunk E conn_url ds_name file) w
    = (outcome (gen_raises g), w')
    /\ loads E (ds_name ++ "_test") (frames g) w w'
    /\ (gen_raises g = None -> reports E (length (frames g)) w w').
Proof.
  revert w. induction g as [idx df rest IH| |logs e]; intros w.
  - destruct (load_chunk_effect E conn_url ds_name file idx df w)
      as (w1 & Hc & Hl1 & Hr1).
    destruct (IH w1) as (w2 & Hg & Hl2 & Hr2).
    exists w2. cbn [for_gen gen_raises]. rewrite (bind_ok _ _ _ _ _ Hc).
    split; [exact Hg|]. split.
    + apply (loads_trans E _ [df] (frames rest) w w1 w2); assumption.
    + intros Hnone. apply (reports_trans E 1 (length (frames rest)) w w1 w2); auto.
      destruct Hl1 as [Hw _]. exact Hw.
  - exists w. split; [reflexivity|]. split.
    + apply loads_nil; reflexivity.
    + intros _. apply (reports_nil E w w []); auto. rewrite app_nil_r. reflexivity.
  - destruct (emit_effect E (ds_name ++ "_test") logs w) as (w1 & He & Hl & _).
    exists w1. cbn [for_gen gen_raises outcome].
    rewrite (bind_ok _ _ _ _ _ He). split; [reflexivity|].
    split; [exact Hl | discriminate].
Qed.

Section Files.
Variables (E : env) (schemas : catalog) (conn_url ds_name : string)
          (chunksize : Z).

Lemma load_file_effect file w :
  let g := read_csv E file schemas ds_name chunksize in
  exists w',
    load_file E schemas conn_url ds_name chunksize file w
    = (outcome (gen_raises g), w')
    /\ loads E (ds_name ++ "_test") (frames g) w w'
    /\ (gen_raises g = None -> reports E (length (frames g)) w w').
Proof.
  cbv zeta. unfold load_file, logger.
  destruct (emit_effect E (ds_name ++ "_test") (record_of INFO (EvFileStart file ds_name)) w)
    as (w1 & He & Hl1 & Hlog1 & Hw1).
  destruct (for_gen_effect E conn_url ds_name file
              (read_csv E file schemas ds_name chunksize) w1)
    as (w2 & Hg & Hl2 & Hr2).
  exists w2. rewrite (bind_ok _ _ _ _ _ He). split; [exact Hg|]. split.
  - apply (loads_trans E (ds_name ++ "_test") [] _ w w1 w2); assumption.
  - intros Hnone.
    apply (reports_trans E 0 _ w w1 w2); [lia| |auto].
    apply (reports_nil E w w1 _ Hw1 Hlog1); reflexivity.
Qed.

(** The outer loop. *)
Lemma for_each_file_effect files w :
  exists w',
    for_each files (load_file E schemas conn_url ds_name chunksize) w
    = (outcome (first_raise (gens E schemas ds_name chunksize files)), w')
    /\ loads E (ds_name ++ "_test") (attempted (gens E schemas ds_name chunksize files)) w w'
    /\ (first_raise (gens E schemas ds_name chunksize files) = None ->
        reports E (length (attempted (gens E schemas ds_name chunksize files))) w w').
Proof.
  revert w. induction files as [|file files IH]; intros w.
  - exists w. split; [reflexivity|]. split.
    + apply loads_nil; reflexivity.
    + intros _. apply (reports_nil E w w []); auto. rewrite app_nil_r. reflexivity.
  - destruct (load_file_effect file w) as (w1 & Hf & Hl1 & Hr1).
    cbn [for_each gens map attempted first_raise].
    destruct (gen_raises (read_csv E file schemas ds_name chunksize)) as [e|] eqn:Hraise.
    + exists w1. rewrite (bind_raise _ _ _ _ _ Hf).
      split; [reflexivity|]. rewrite app_nil_r.
      split; [exact Hl1 | discriminate].
    + destruct (IH w1) as (w2 & Hrest & Hl2 & Hr2).
      exists w2. rewrite (bind_ok _ _ _ _ _ Hf).
      split; [exact Hrest|]. split.
      * apply (loads_trans E (ds_name ++ "_test") _ _ w w1 w2); assumption.
      * intros Hnone. rewrite length_app.
        apply (reports_trans E _ _ w w1 w2); auto.
        destruct Hl1 as [Hw _]. exact Hw.
Qed.

(** The loader on a dataset that has files. *)
Lemma db_loader_effect src_base_dir w :
  let files := glob E (src_base_dir ++ "/" ++ ds_name ++ "/part-*") in
  files <> [] ->
  exists w',
    db_loader E src_base_dir schemas conn_url ds_name chunksize w
    = (outcome (first_raise (gens E schemas ds_name chunksize files)), w')
    /\ loads E (ds_name ++ "_test") (attempted (gens E schemas ds_name chunksize files)) w w'
    /\ (first_raise (gens E schemas ds_name chunksize files) = None ->
        reports E (length (attempted (gens E schemas ds_name chunksize files))) w w').
Proof.
  cbv zeta. intros Hne. unfold db_loader, logger.
  destruct (glob E (src_base_dir ++ "/" ++ ds_name ++ "/part-*"))
    as [|file files] eqn:Hglob; [congruence|].
  cbn [length Nat.eqb].
  destruct (emit_effect E (ds_name ++ "_test") (record_of INFO (EvSearching ds_name)) w)
    as (w1 & He & Hl1 & Hlog1 & Hw1).
  rewrite (bind_ok _ _ _ _ _ He).
  destruct (for_each_file_effect (file :: files) w1) as (w2 & Hf & Hl2 & Hr2).
  destruct (first_raise (gens E schemas ds_name chunksize (file :: files))) as [e|] eqn:Hraise.
  - exists w2. rewrite (bind_raise _ _ _ _ _ Hf). split; [reflexivity|].
    split; [|discriminate].
    apply (loads_trans E (ds_name ++ "_test") [] _ w w1 w2); assumption.
  - destruct (emit_effect E (ds_name ++ "_test") (record_of INFO (EvFinished ds_name)) w2)
      as (w3 & He3 & Hl3 & Hlog3 & Hw3).
    exists w3. rewrite (bind_ok _ _ _ _ _ Hf). split; [exact He3|]. split.
    + rewrite <- (app_nil_r (attempted _)).
      apply (loads_trans E (ds_name ++ "_test") _ [] w w2 w3); [|assumption].
      apply (loads_trans E (ds_name ++ "_test") [] _ w w1 w2); assumption.
    + intros _.
      replace (length (attempted (gens E schemas ds_name chunksize (file :: files))))
        with (0 + length (attempted (gens E schemas ds_name chunksize (file :: files))) + 0)%nat by lia.
      apply (reports_trans E _ 0 w w2 w3).
      * destruct Hl2 as [Hw2 _]. rewrite Hw2, Hw1. lia.
      * apply (reports_trans E 0 _ w w1 w2); [lia| |auto].
        apply (reports_nil E w w1 _ Hw1 Hlog1); reflexivity.
      * apply (reports_nil E w2 w3 _ Hw3 Hlog3); reflexivity.
Qed.
End Files.

(** ** Which frames are attempted *)

Lemma attempted_prefix (pre rest : list gen) :
  Forall (fun g => gen_raises g = None) pre ->
  attempted (pre ++ rest) = (concat (map frames pre) ++ attempted rest)%list
  /\ first_raise (pre ++ rest) = first_raise rest.
Proof.
  induction 1 as [|g pre Hg _ [IHa IHr]]; simpl.
  - auto.
  - rewrite Hg, IHa, IHr, app_assoc. auto.
Qed.

Lemma attempted_all (gs : list gen) :
  Forall (fun g => gen_raises g = None) gs ->
  attempted gs = concat (map frames gs) /\ first_raise gs = None.
Proof.
  intros H. destruct (attempted_prefix gs [] H) as [Ha Hr].
  rewrite !app_nil_r in *. auto.
Qed.

(** A single rejected write among the attempts: all the other frames are
    written. *)
Lemma written_single E n (dfs : list dataframe) j e :
  (j < length dfs)%nat ->
  e_faults E !! (n + j)%nat = Some e ->
  (forall i, (i < length dfs)%nat -> i <> j -> e_faults E !! (n + i)%nat = None) ->
  written E n dfs = concat (map rows_of (delete j dfs))
  /\ rejections E n (length dfs) = 1%nat.
Proof.
  revert n j. induction dfs as [|df dfs IH]; intros n j Hj Hfault Hothers;
    simpl in Hj; [lia|].
  destruct j as [|j].
  - rewrite Nat.add_0_r in Hfault. cbn [written rejections length delete].
    rewrite Hfault. simpl.
    assert (forall k m, (forall i, (i < k)%nat -> e_faults E !! (m + i)%nat = None) ->
            forall l, length l = k ->
            written E m l = concat (map rows_of l) /\ rejections E m k = 0%nat)
      as Hclean.
    { clear. induction k as [|k IHk]; intros m Hnone l Hl.
      - destruct l; [auto | discriminate].
      - destruct l as [|x l]; [discriminate|]. simpl.
        pose proof (Hnone 0%nat ltac:(lia)) as H0. rewrite Nat.add_0_r in H0.
        rewrite H0. simpl.
        destruct (IHk (S m)) with (l := l) as [Hw Hr].
        + intros i Hi. specialize (Hnone (S i) ltac:(lia)).
          replace (S m + i)%nat with (m + S i)%nat by lia. exact Hnone.
        + simpl in Hl. lia.
        + rewrite Hw, Hr. auto. }
    destruct (Hclean (length dfs) (S n)) with (l := dfs) as [Hw Hr].
    + intros i Hi. specialize (Hothers (S i) ltac:(simpl; lia) ltac:(lia)).
      replace (S n + i)%nat with (n + S i)%nat by lia. exact Hothers.
    + reflexivity.
    + rewrite Hw, Hr. auto.
  - cbn [written rejections length delete map concat].
    pose proof (Hothers 0%nat ltac:(simpl; lia) ltac:(lia)) as H0.
    rewrite Nat.add_0_r in H0. rewrite H0.
    destruct (IH (S n) j) as [Hw Hr].
    + lia.
    + replace (S n + j)%nat with (n + S j)%nat by lia. exact Hfault.
    + intros i Hi Hne. specialize (Hothers (S i) ltac:(simpl; lia) ltac:(lia)).
      replace (S n + i)%nat with (n + S i)%nat by lia. exact Hothers.
    + rewrite Hw, Hr. auto.
Qed.

(** ** C1 *)

(** C1 (as the code has it). A rejected write is caught and logged and
    the loop goes on; an exception of the reader is not caught. The frames
    sent to the table are those of the generators up to the first one that
    raises, and that exception, if any, is the outcome of the loader. When
    no generator raises, the loader ends normally, every chunk of every
    file is attempted, the table receives the rows of exactly the accepted
    chunks, and the log has one failure record per rejected chunk and one
    success record per accepted chunk. In particular, if exactly one write
    is rejected, the rows of all the other chunks are written: chunks - 1
    successes and one logged failure. *)
Theorem db_loader_write_isolation (E : env) (src_base_dir : string)
    (schemas : catalog) (conn_url ds_name : string) (chunksize : Z) (w : world) :
  let files := glob E (src_base_dir ++ "/" ++ ds_name ++ "/part-*") in
  let gs := gens E schemas ds_name chunksize files in
  let dfs := concat (map frames gs) in
  let tbl := ds_name ++ "_test" in
  files <> [] ->
  let r := db_loader E src_base_dir schemas conn_url ds_name chunksize w in
  (fst r = outcome (first_raise gs) /\ loads E tbl (attempted gs) w (snd r))
  /\ (Forall (fun g => gen_raises g = None) gs ->
      fst r = Ok tt
      /\ w_writes (snd r) = (w_writes w + length dfs)%nat
      /\ table (snd r) tbl = (table w tbl ++ written E (w_writes w) dfs)%list
      /\ (forall t, t <> tbl -> table (snd r) t = table w t)
      /\ exists log,
           w_log (snd r) = (w_log w ++ log)%list
           /\ failed_count log = rejections E (w_writes w) (length dfs)
           /\ done_count log
              = (length dfs - rejections E (w_writes w) (length dfs))%nat
           /\ (forall j e,
                 (j < length dfs)%nat ->
                 e_faults E !! (w_writes w + j)%nat = Some e ->
                 (forall i, (i < length dfs)%nat -> i <> j ->
                            e_faults E !! (w_writes w + i)%nat = None) ->
                 table (snd r) tbl
                 = (table w tbl ++ concat (map rows_of (delete j dfs)))%list
                 /\ failed_count log = 1%nat
                 /\ done_count log = (length dfs - 1)%nat)).
Proof.
  cbv zeta. intros Hfiles.
  destruct (db_loader_effect E schemas conn_url ds_name chunksize src_base_dir w Hfiles)
    as (w' & Hrun & Hloads & Hrep).
  rewrite Hrun. cbn [fst snd]. split; [split; [reflexivity | exact Hloads]|].
  intros Hgs. destruct Hloads as (Hw & Ht & Ho).
  destruct (attempted_all _ Hgs) as [Hatt Hnone].
  rewrite Hnone, Hatt in *. cbn [outcome].
  split; [reflexivity|]. split; [exact Hw|]. split; [exact Ht|].
  split; [exact Ho|].
  destruct (Hrep eq_refl) as (log & Hlog & Hf & Hd).
  exists log. split; [exact Hlog|]. split; [exact Hf|]. split; [exact Hd|].
  intros j e Hj Hfault Hothers.
  destruct (written_single E (w_writes w) _ j e Hj Hfault Hothers) as [Hws Hrs].
  rewrite Ht, Hws, Hf, Hd, Hrs. auto.
Qed.

Lemma db_loader_write_isolation_witness :
  fst (db_loader rejecting_env "/data" orders_catalog "postgresql://u:p@h:5432/db"
         "orders" 1 empty_world) = Ok tt
  /\ w_writes (snd (db_loader rejecting_env "/data" orders_catalog
                      "postgresql://u:p@h:5432/db" "orders" 1 empty_world))
     = 3%nat
  /\ table (snd (db_loader rejecting_env "/data" orders_catalog
                   "postgresql://u:p@h:5432/db" "orders" 1 empty_world))
       "orders_test"
     = [row_of "a" 1 100; row_of "c" 3 300].
Proof.
  pose proof (db_loader_write_isolation rejecting_env "/data" orders_catalog
                "postgresql://u:p@h:5432/db" "orders" 1 empty_world) as H.
  cbv zeta in H.
  destruct H as [_ H]; [vm_compute; discriminate|].
  destruct H as (Hok & Hw & Ht & _).
  - vm_compute. repeat constructor.
  - split; [exact Hok|]. split.
    + rewrite Hw. vm_compute. reflexivity.
    + change (String.append "orders" "_test") with "orders_test" in Ht.
      rewrite Ht. vm_compute. reflexivity.
Defined.

(** C1 (as stated) fails for a parse failure: the parse error at the
    second line of the first file leaves the loader after one write; the
    third chunk of that file and the chunk of the second file are never
    written, and the loader logs no chunk failure. *)
Lemma parse_failure_aborts_load :
  e_faults unparsable_env = ∅
  /\ length (gen_chunks (read_csv unparsable_env "/data/orders/part-00001"
                           orders_catalog "orders" 1)) = 1%nat
  /\ fst unparsable_run = Raise ParserError
  /\ w_writes (snd unparsable_run) = 1%nat
  /\ table (snd unparsable_run) "orders_test" = [row_of "a" 1 100]
  /\ failed_count (w_log (snd unparsable_run)) = 0%nat
  /\ ~ In (row_of "c" 3 300) (table (snd unparsable_run) "orders_test")
  /\ ~ In (row_of "d" 4 400) (table (snd unparsable_run) "orders_test").
Proof.
  split; [reflexivity|].
  split; [vm_compute; reflexivity|].
  split; [vm_compute; reflexivity|].
  split; [vm_compute; reflexivity|].
  assert (table (snd unparsable_run) "orders_test" = [row_of "a" 1 100]) as Ht
    by (vm_compute; reflexivity).
  split; [exact Ht|].
  split; [vm_compute; reflexivity|].
  rewrite Ht. split; intros [H|[]]; discriminate.
Qed.

(** ** C6 *)

(** C6 (as the code has it). When the generator of a file raises before
    yielding any chunk (the file cannot be opened, say), the exception
    leaves the Dataset Loader: the load of the dataset ends with it, only
    the chunks of the files listed before were attempted, and no file
    listed after is processed. *)
Theorem db_loader_reader_failure (E : env) (src_base_dir : string)
    (schemas : catalog) (conn_url ds_name : string) (chunksize : Z) (w : world)
    (pre : list string) (file : string) (post : list string)
    (logs : list entry) (e : exn) :
  glob E (src_base_dir ++ "/" ++ ds_name ++ "/part-*") = (pre ++ file :: post)%list ->
  Forall (fun f => gen_raises (read_csv E f schemas ds_name chunksize) = None) pre ->
  read_csv E file schemas ds_name chunksize = GRaise logs e ->
  let dfs := concat (map (fun f => frames (read_csv E f schemas ds_name chunksize))
                         pre) in
  let tbl := ds_name ++ "_test" in
  let r := db_loader E src_base_dir schemas conn_url ds_name chunksize w in
  fst r = Raise e
  /\ w_writes (snd r) = (w_writes w + length dfs)%nat
  /\ table (snd r) tbl = (table w tbl ++ written E (w_writes w) dfs)%list
  /\ (forall t, t <> tbl -> table (snd r) t = table w t).
Proof.
  intros Hglob Hpre Hfile. cbv zeta.
  destruct (db_loader_effect E schemas conn_url ds_name chunksize src_base_dir w)
    as (w' & Hrun & Hloads & _).
  { rewrite Hglob. destruct pre; discriminate. }
  unfold gens in Hrun, Hloads.
  rewrite Hglob, map_app in Hrun, Hloads. cbn [map] in Hrun, Hloads.
  destruct (attempted_prefix
              (map (fun f => read_csv E f schemas ds_name chunksize) pre)
              (read_csv E file schemas ds_name chunksize
                 :: map (fun f => read_csv E f schemas ds_name chunksize) post))
    as [Hatt Hraise].
  { apply Forall_map. exact Hpre. }
  rewrite Hatt, Hraise in *. rewrite Hfile in *.
  cbn [attempted first_raise gen_raises frames gen_chunks map] in *.
  rewrite app_nil_r, map_map in Hloads.
  rewrite Hrun. cbn [fst snd outcome]. destruct Hloads as (Hw & Ht & Ho).
  auto.
Qed.

Lemma db_loader_reader_failure_witness :
  fst dangling_run = Raise (FileNotFoundError "/data/orders/part-00000")
  /\ w_writes (snd dangling_run) = 0%nat
  /\ table (snd dangling_run) "orders_test" = [].
Proof.
  pose proof (db_loader_reader_failure dangling_env "/data" orders_catalog
                "postgresql://u:p@h:5432/db" "orders" 10000 empty_world
                [] "/data/orders/part-00000" ["/data/orders/part-00001"]
                [(ERROR, EvFileNotFound "/data/orders/part-00000")]
                (FileNotFoundError "/data/orders/part-00000")) as H.
  cbv zeta in H.
  destruct H as (Hr & Hw & Ht & _).
  - vm_compute. reflexivity.
  - constructor.
  - vm_compute. reflexivity.
  - unfold dangling_run. split; [exact Hr|]. split; [exact Hw | exact Ht].
Defined.

(** C6 (as stated) fails: the first listed file cannot be opened, the
    loader raises file-not-found and the second file, which has a chunk,
    is never processed. *)
Lemma open_failure_skips_later_files :
  glob dangling_env "/data/orders/part-*"
    = ["/data/orders/part-00000"; "/data/orders/part-00001"]
  /\ gen_chunks (read_csv dangling_env "/data/orders/part-00000" orders_catalog
                   "orders" 10000) = []
  /\ length (gen_chunks (read_csv dangling_env "/data/orders/part-00001"
                           orders_catalog "orders" 10000)) = 1%nat
  /\ fst dangling_run = Raise (FileNotFoundError "/data/orders/part-00000")
  /\ w_writes (snd dangling_run) = 0%nat
  /\ table (snd dangling_run) "orders_test" = []
  /\ ~ In (INFO, EvFileStart "/data/orders/part-00001" "orders")
          (w_log (snd dangling_run)).
Proof.
  split; [vm_compute; reflexivity|].
  split; [vm_compute; reflexivity|].
  split; [vm_compute; reflexivity|].
  split; [vm_compute; reflexivity|].
  split; [vm_compute; reflexivity|].
  split; [vm_compute; reflexivity|].
  vm_compute. intros H. repeat (destruct H as [H|H]; [discriminate|]). exact H.
Qed.

(** ** Appending never removes rows *)

Lemma grows_refl w w' :
  (forall t, table w' t = table w t) -> grows w w'.
Proof. intros H t. exists []. rewrite app_nil_r. apply H. Qed.

Lemma grows_trans w1 w2 w3 : grows w1 w2 -> grows w2 w3 -> grows w1 w3.
Proof.
  intros H12 H23 t. destruct (H12 t) as [n1 H1]. destruct (H23 t) as [n2 H2].
  exists (n1 ++ n2)%list. rewrite H2, H1, app_assoc. reflexivity.
Qed.

Create HintDb keeps.

Lemma keeps_ret {A} (a : A) : keeps_rows (ret a).
Proof. intros w. apply grows_refl. reflexivity. Qed.

Lemma keeps_raise {A} e : keeps_rows (@raise A e).
Proof. intros w. apply grows_refl. reflexivity. Qed.

Lemma keeps_emit logs : keeps_rows (emit logs).
Proof. intros w. apply grows_refl. reflexivity. Qed.

Lemma keeps_logger l ev : keeps_rows (logger l ev).
Proof. apply keeps_emit. Qed.

Lemma keeps_bind {A B} (m : M A) (k : A -> M B) :
  keeps_rows m -> (forall a, keeps_rows (k a)) -> keeps_rows (bind m k).
Proof.
  intros Hm Hk w. unfold bind. specialize (Hm w).
  destruct (m w) as [[a|e] w1]; simpl in *.
  - eapply grows_trans; [exact Hm | apply Hk].
  - exact Hm.
Qed.

Lemma keeps_try_except {A} (m : M A) (h : exn -> M A) :
  keeps_rows m -> (forall e, keeps_rows (h e)) -> keeps_rows (try_except m h).
Proof.
  intros Hm Hh w. unfold try_except. specialize (Hm w).
  destruct (m w) as [[a|e] w1]; simpl in *.
  - exact Hm.
  - eapply grows_trans; [exact Hm | apply Hh].
Qed.

Lemma keeps_for_each {A} (l : list A) (body : A -> M unit) :
  (forall x, keeps_rows (body x)) -> keeps_rows (for_each l body).
Proof.
  intros Hb. induction l; simpl; [apply keeps_ret|].
  apply keeps_bind; auto.
Qed.

Lemma keeps_for_gen (g : gen) (body : nat -> dataframe -> M unit) :
  (forall idx df, keeps_rows (body idx df)) -> keeps_rows (for_gen g body).
Proof.
  intros Hb. induction g; simpl.
  - apply keeps_bind; auto.
  - apply keeps_ret.
  - apply keeps_bind; [apply keeps_emit | intros; apply keeps_raise].
Qed.

Lemma keeps_df_to_sql E name df : keeps_rows (df_to_sql E name df).
Proof.
  intros w t. unfold df_to_sql. destruct (e_faults E !! w_writes w); simpl.
  - exists []. rewrite app_nil_r. reflexivity.
  - destruct (decide (name = t)) as [->|Hne].
    + exists (rows_of df). apply table_insert_eq.
    + exists []. rewrite app_nil_r. unfold table. simpl.
      rewrite lookup_insert_ne by assumption. reflexivity.
Qed.

#[local] Hint Resolve keeps_ret keeps_raise keeps_emit keeps_logger keeps_bind
  keeps_try_except keeps_for_each keeps_for_gen keeps_df_to_sql : keeps.

Lemma keeps_to_sql E name df conn_url : keeps_rows (to_sql E name df conn_url).
Proof.
  unfold to_sql. apply keeps_try_except; auto with keeps.
  intros []; auto with keeps.
Qed.

Lemma keeps_load_chunk E conn_url ds_name file idx df :
  keeps_rows (load_chunk E conn_url ds_name file idx df).
Proof.
  unfold load_chunk. apply keeps_try_except; auto with keeps.
  apply keeps_bind; auto with keeps. intros _.
  apply keeps_bind; [apply keeps_to_sql|]. intros []; auto with keeps.
Qed.

Lemma keeps_db_loader E src_base_dir schemas conn_url ds_name chunksize :
  keeps_rows (db_loader E src_base_dir schemas conn_url ds_name chunksize).
Proof.
  unfold db_loader. apply keeps_bind; auto with keeps. intros _.
  destruct (Nat.eqb _ 0); auto with keeps.
  apply keeps_bind; auto with keeps.
  apply keeps_for_each. intros file. unfold load_file.
  apply keeps_bind; auto with keeps. intros _.
  apply keeps_for_gen. intros. apply keeps_load_chunk.
Qed.

Lemma keeps_main E ds_names chunksize : keeps_rows (main E ds_names chunksize).
Proof.
  unfold main. apply keeps_bind.
  - unfold check_env_vars. apply keeps_for_each. intros var.
    destruct (String.eqb _ ""); auto with keeps.
  - intros _. apply keeps_bind.
    + unfold load_schema. destruct (e_schemas E !! _) as [[c|]|]; auto with keeps.
    + intros schemas. apply keeps_bind.
      * unfold resolve_ds_names. destruct (falsy ds_names); auto with keeps.
      * intros [| |l]; auto with keeps.
        -- apply keeps_db_loader.
        -- apply keeps_for_each. intros. apply keeps_db_loader.
Qed.

(** ** Without rejected writes, a run appends the same rows every time *)

Lemma appends_pure {A} (m : M A) (r : result A) :
  (forall w, fst (m w) = r /\ forall t, table (snd (m w)) t = table w t) ->
  appends m.
Proof.
  intros H. exists r, (fun _ => []). intros w. destruct (H w) as [Hr Ht].
  split; [exact Hr|]. intros t. rewrite app_nil_r. apply Ht.
Qed.

Lemma appends_ret {A} (a : A) : appends (ret a).
Proof. apply (appends_pure _ (Ok a)). intros w. split; reflexivity. Qed.

Lemma appends_raise {A} e : appends (@raise A e).
Proof. apply (appends_pure _ (Raise e)). intros w. split; reflexivity. Qed.

Lemma appends_emit logs : appends (emit logs).
Proof. apply (appends_pure _ (Ok tt)). intros w. split; reflexivity. Qed.

Lemma appends_logger l ev : appends (logger l ev).
Proof. apply appends_emit. Qed.

Lemma appends_bind {A B} (m : M A) (k : A -> M B) :
  appends m -> (forall a, appends (k a)) -> appends (bind m k).
Proof.
  intros (r1 & d1 & H1) Hk. destruct r1 as [a|e].
  - destruct (Hk a) as (r2 & d2 & H2).
    exists r2, (fun t => d1 t ++ d2 t)%list. intros w. unfold bind.
    destruct (H1 w) as [Hr Ht]. destruct (m w) as [r w1]; simpl in *. subst r.
    destruct (H2 w1) as [Hr2 Ht2]. split; [exact Hr2|].
    intros t. rewrite Ht2, Ht, app_assoc. reflexivity.
  - exists (Raise e), d1. intros w. unfold bind.
    destruct (H1 w) as [Hr Ht]. destruct (m w) as [r w1]; simpl in *. subst r.
    split; [reflexivity | exact Ht].
Qed.

Lemma appends_try_except {A} (m : M A) (h : exn -> M A) :
  appends m -> (forall e, appends (h e)) -> appends (try_except m h).
Proof.
  intros (r1 & d1 & H1) Hh. destruct r1 as [a|e].
  - exists (Ok a), d1. intros w. unfold try_except.
    destruct (H1 w) as [Hr Ht]. destruct (m w) as [r w1]; simpl in *. subst r.
    split; [reflexivity | exact Ht].
  - destruct (Hh e) as (r2 & d2 & H2).
    exists r2, (fun t => d1 t ++ d2 t)%list. intros w. unfold try_except.
    destruct (H1 w) as [Hr Ht]. destruct (m w) as [r w1]; simpl in *. subst r.
    destruct (H2 w1) as [Hr2 Ht2]. split; [exact Hr2|].
    intros t. rewrite Ht2, Ht, app_assoc. reflexivity.
Qed.

Lemma appends_for_each {A} (l : list A) (body : A -> M unit) :
  (forall x, appends (body x)) -> appends (for_each l body).
Proof.
  intros Hb. induction l; simpl; [apply appends_ret|].
  apply appends_bind; auto.
Qed.

Lemma appends_for_gen (g : gen) (body : nat -> dataframe -> M unit) :
  (forall idx df, appends (body idx df)) -> appends (for_gen g body).
Proof.
  intros Hb. induction g; simpl.
  - apply appends_bind; auto.
  - apply appends_ret.
  - apply appends_bind; [apply appends_emit | intros; apply appends_raise].
Qed.

Section NoFaults.
Variable E : env.
Hypothesis no_faults : forall n, e_faults E !! n = None.

Lemma appends_df_to_sql name df : appends (df_to_sql E name df).
Proof.
  exists (Ok tt), (fun t => if decide (name = t) then rows_of df else []).
  intros w. unfold df_to_sql. rewrite no_faults. simpl.
  split; [reflexivity|]. intros t. destruct (decide (name = t)) as [->|Hne].
  - apply table_insert_eq.
  - rewrite app_nil_r. unfold table. simpl.
    rewrite lookup_insert_ne by assumption. reflexivity.
Qed.

#[local] Hint Resolve appends_ret appends_raise appends_emit appends_logger
  appends_bind appends_try_except appends_for_each appends_for_gen
  appends_df_to_sql : keeps.

Lemma appends_to_sql name df conn_url : appends (to_sql E name df conn_url).
Proof.
  unfold to_sql. apply appends_try_except; auto with keeps.
  intros []; auto with keeps.
Qed.

Lemma appends_load_chunk conn_url ds_name file idx df :
  appends (load_chunk E conn_url ds_name file idx df).
Proof.
  unfold load_chunk. apply appends_try_except; auto with keeps.
  apply appends_bind; auto with keeps. intros _.
  apply appends_bind; [apply appends_to_sql|]. intros []; auto with keeps.
Qed.

Lemma appends_db_loader src_base_dir schemas conn_url ds_name chunksize :
  appends (db_loader E src_base_dir schemas conn_url ds_name chunksize).
Proof.
  unfold db_loader. apply appends_bind; auto with keeps. intros _.
  destruct (Nat.eqb _ 0); auto with keeps.
  apply appends_bind; auto with keeps.
  apply appends_for_each. intros file. unfold load_file.
  apply appends_bind; auto with keeps. intros _.
  apply appends_for_gen. intros. apply appends_load_chunk.
Qed.

Lemma appends_main ds_names chunksize : appends (main E ds_names chunksize).
Proof.
  unfold main. apply appends_bind.
  - unfold check_env_vars. apply appends_for_each. intros var.
    destruct (String.eqb _ ""); auto with keeps.
  - intros _. apply appends_bind.
    + unfold load_schema. destruct (e_schemas E !! _) as [[c|]|]; auto with keeps.
    + intros schemas. apply appends_bind.
      * unfold resolve_ds_names. destruct (falsy ds_names); auto with keeps.
      * intros [| |l]; auto with keeps.
        -- apply appends_db_loader.
        -- apply appends_for_each. intros. apply appends_db_loader.
Qed.
End NoFaults.

(** ** C7 *)

(** C7. The Table Writer appends and is not idempotent. (1) Writing the
    same chunk twice, both writes accepted, leaves its rows twice at the
    end of the table. (2) No write and (3) no run overwrites or deletes a
    row that was there: every table afterwards is the table before with
    rows added at its end. (4) When the database rejects no write, a run
    adds rows that do not depend on what the database held, so that
    running the same load twice over an unchanged source adds them
    twice. *)
Theorem to_sql_appends_duplicates :
  (forall E name df conn_url w,
     e_faults E !! w_writes w = None ->
     e_faults E !! S (w_writes w) = None ->
     fst (to_sql E name df conn_url w) = Ok true
     /\ fst (to_sql E name df conn_url (snd (to_sql E name df conn_url w))) = Ok true
     /\ table (snd (to_sql E name df conn_url (snd (to_sql E name df conn_url w))))
          name
        = (table w name ++ rows_of df ++ rows_of df)%list)
  /\ (forall E name df conn_url w t,
        exists new,
          table (snd (to_sql E name df conn_url w)) t = (table w t ++ new)%list)
  /\ (forall E ds_names chunksize w t,
        exists new,
          table (snd (main E ds_names chunksize w)) t = (table w t ++ new)%list)
  /\ (forall E ds_names chunksize,
        (forall n, e_faults E !! n = None) ->
        exists delta,
          forall w t,
            table (snd (main E ds_names chunksize w)) t
            = (table w t ++ delta t)%list
            /\ table (snd (main E ds_names chunksize
                             (snd (main E ds_names chunksize w)))) t
               = (table w t ++ delta t ++ delta t)%list).
Proof.
  split; [|split; [|split]].
  - intros E name df conn_url w H0 H1.
    unfold to_sql, try_except, bind, df_to_sql, ret. simpl.
    rewrite H0. simpl. rewrite H1. simpl.
    split; [reflexivity|]. split; [reflexivity|].
    unfold table. simpl. rewrite !lookup_insert_eq. simpl.
    rewrite <- app_assoc. reflexivity.
  - intros E name df conn_url w t. apply (keeps_to_sql E name df conn_url w t).
  - intros E ds_names chunksize w t. apply (keeps_main E ds_names chunksize w t).
  - intros E ds_names chunksize Hnone.
    destruct (appends_main E Hnone ds_names chunksize) as (r & delta & H).
    exists delta. intros w t.
    destruct (H w) as [_ H1].
    destruct (H (snd (main E ds_names chunksize w))) as [_ H2].
    split; [apply H1|]. rewrite H2, H1, app_assoc. reflexivity.
Qed.

Lemma to_sql_appends_duplicates_witness :
  table (snd (main orders_run_env SelNone 10000 empty_world)) "orders_test"
  = orders_rows
  /\ table (snd (main orders_run_env SelNone 10000
                   (snd (main orders_run_env SelNone 10000 empty_world))))
       "orders_test"
     = (orders_rows ++ orders_rows)%list.
Proof.
  destruct to_sql_appends_duplicates as (_ & _ & _ & H).
  destruct (H orders_run_env SelNone 10000 ltac:(intros n; apply lookup_empty))
    as (delta & Hd).
  destruct (Hd empty_world "orders_test") as [H1 H2].
  assert (table (snd (main orders_run_env SelNone 10000 empty_world)) "orders_test"
          = orders_rows) as Hrows by (vm_compute; reflexivity).
  assert (delta "orders_test" = orders_rows) as Hdelta
    by (rewrite <- Hrows, H1; reflexivity).
  split; [exact Hrows|].
  rewrite H2, Hdelta. reflexivity.
Defined.

(** * Further properties of the program *)

(** ** The orchestrator's start-up checks *)

(** X1. When one of the six environment variables is unset or empty,
    [main] raises ValueError naming the first such variable, in the order
    SRC_BASE_DIR, DB_USER, DB_PASS, DB_HOST, DB_PORT, DB_NAME; the schema
    is not read, nothing is logged and nothing is written. *)
Theorem main_missing_environment_variable (E : env) (ds_names : selector)
    (chunksize : Z) (w : world) (before : list string) (var : string)
    (after : list string) :
  env_vars = (before ++ var :: after)%list ->
  Forall (fun v => environ_get E v <> "") before ->
  environ_get E var = "" ->
  main E ds_names chunksize w
  = (Raise (ValueError ("Missing environment variable " ++ var)), w).
Proof.
  intros Hsplit Hbefore Hvar. unfold main.
  apply bind_raise. unfold check_env_vars. rewrite Hsplit.
  clear Hsplit. revert w.
  induction Hbefore as [|v l Hv _ IH]; intros w; simpl.
  - unfold bind. rewrite Hvar. reflexivity.
  - apply String.eqb_neq in Hv. unfold bind at 1. rewrite Hv. simpl. apply IH.
Qed.

Lemma main_missing_environment_variable_witness :
  main no_port_env SelNone 10000 empty_world
  = (Raise (ValueError "Missing environment variable DB_PORT"), empty_world).
Proof.
  apply (main_missing_environment_variable no_port_env SelNone 10000 empty_world
           ["SRC_BASE_DIR"; "DB_USER"; "DB_PASS"; "DB_HOST"] "DB_PORT" ["DB_NAME"]).
  - reflexivity.
  - repeat constructor; vm_compute; discriminate.
  - vm_compute. reflexivity.
Defined.



(** ** The orchestrator's loop over datasets *)

Lemma for_each_raises {A} (body : A -> M unit) (pre : list A) (x : A)
    (post : list A) (w w1 w2 : world) (e : exn) :
  for_each pre body w = (Ok tt, w1) ->
  body x w1 = (Raise e, w2) ->
  for_each (pre ++ x :: post) body w = (Raise e, w2).
Proof.
  revert w. induction pre as [|y pre IH]; intros w; simpl.
  - intros [= <-] Hx. unfold bind. rewrite Hx. reflexivity.
  - unfold bind. destruct (body y w) as [[[]|e'] w']; [apply IH | discriminate].
Qed.

(** X3. [main] catches nothing from the Dataset Loader. With the
    environment complete and the catalog loaded, when the datasets listed
    before [ds] load normally and the loader raises on [ds], the run ends
    with that exception in the very world in which the loader raised it:
    no dataset listed after [ds] is loaded or even looked for. *)
Theorem main_stops_at_first_failure (E : env) (schemas : catalog)
    (chunksize : Z) (w w1 w2 : world) (pre : list string) (ds : string)
    (post : list string) (e : exn) :
  Forall (fun var => environ_get E var <> "") env_vars ->
  e_schemas E !! schema_path E = Some (Some schemas) ->
  for_each pre
    (fun ds_name =>
       db_loader E (environ_get E "SRC_BASE_DIR") schemas (connection_url E)
                 ds_name chunksize)
    (log_to (log_to w [(INFO, EvSchemaLoaded)])
            [(INFO, EvLoadingSpecified (SelList (pre ++ ds :: post)))])
  = (Ok tt, w1) ->
  db_loader E (environ_get E "SRC_BASE_DIR") schemas (connection_url E) ds
            chunksize w1 = (Raise e, w2) ->
  main E (SelList (pre ++ ds :: post)) chunksize w = (Raise e, w2).
Proof.
  intros Henv Hschema Hpre Hds.
  rewrite (main_loaded E schemas _ chunksize w Henv Hschema).
  assert (falsy (SelList (pre ++ ds :: post)) = false) as Hsel.
  { unfold falsy. rewrite length_app. simpl. rewrite Nat.add_succ_r. reflexivity. }
  unfold resolve_ds_names. rewrite Hsel.
  unfold bind at 1. unfold bind at 1. unfold logger, emit, ret.
  cbn [record_of enabled].
  apply (for_each_raises _ pre ds post _ w1 w2 e Hpre Hds).
Qed.

Lemma main_stops_at_first_failure_witness :
  main orders_run_env (SelList ["customers"; "orders"]) 10000 empty_world
  = (Raise (ValueError "No files found for customers"),
     log_to empty_world
       [(INFO, EvSchemaLoaded);
        (INFO, EvLoadingSpecified (SelList ["customers"; "orders"]));
        (INFO, EvSearching "customers"); (ERROR, EvNoFiles "customers")]).
Proof.
  apply (main_stops_at_first_failure orders_run_env orders_catalog 10000
           empty_world
           (log_to (log_to empty_world [(INFO, EvSchemaLoaded)])
                   [(INFO, EvLoadingSpecified (SelList ["customers"; "orders"]))])
           _ [] "customers" ["orders"]).
  - repeat constructor; vm_compute; discriminate.
  - vm_compute. reflexivity.
  - reflexivity.
  - vm_compute. reflexivity.
Defined.

(** *** Computations that do not read the log *)

Lemma log_blind_pure {A} (r : result A) (logs : list entry) :
  log_blind (fun w => (r, log_to w logs)).
Proof.
  intros w w' [Ht Hw]. split; [reflexivity|]. split; [split; assumption|].
  exists logs. split; reflexivity.
Qed.

Lemma log_blind_ret {A} (a : A) : log_blind (ret a).
Proof.
  intros w w' Hs. split; [reflexivity|]. split; [exact Hs|].
  exists []. rewrite !app_nil_r. split; reflexivity.
Qed.

Lemma log_blind_raise {A} e : log_blind (@raise A e).
Proof.
  intros w w' Hs. split; [reflexivity|]. split; [exact Hs|].
  exists []. rewrite !app_nil_r. split; reflexivity.
Qed.

Lemma log_blind_emit logs : log_blind (emit logs).
Proof. apply (log_blind_pure (Ok tt) logs). Qed.

Lemma log_blind_logger l ev : log_blind (logger l ev).
Proof. apply log_blind_emit. Qed.

Lemma log_blind_bind {A B} (m : M A) (k : A -> M B) :
  log_blind m -> (forall a, log_blind (k a)) -> log_blind (bind m k).
Proof.
  intros Hm Hk w w' Hs. unfold bind.
  destruct (Hm w w' Hs) as (Hr & Hs1 & l1 & Hl & Hl').
  destruct (m w) as [[a|e] w1], (m w') as [[a'|e'] w1']; simpl in *;
    try discriminate.
  - injection Hr as <-.
    destruct (Hk a w1 w1' Hs1) as (Hr2 & Hs2 & l2 & H2 & H2').
    split; [exact Hr2|]. split; [exact Hs2|].
    exists (l1 ++ l2)%list. rewrite H2, H2', Hl, Hl', !app_assoc. auto.
  - injection Hr as <-.
    split; [reflexivity|]. split; [exact Hs1|]. exists l1. auto.
Qed.

Lemma log_blind_try_except {A} (m : M A) (h : exn -> M A) :
  log_blind m -> (forall e, log_blind (h e)) -> log_blind (try_except m h).
Proof.
  intros Hm Hh w w' Hs. unfold try_except.
  destruct (Hm w w' Hs) as (Hr & Hs1 & l1 & Hl & Hl').
  destruct (m w) as [[a|e] w1], (m w') as [[a'|e'] w1']; simpl in *;
    try discriminate.
  - split; [exact Hr|]. split; [exact Hs1|]. exists l1. auto.
  - injection Hr as <-.
    destruct (Hh e w1 w1' Hs1) as (Hr2 & Hs2 & l2 & H2 & H2').
    split; [exact Hr2|]. split; [exact Hs2|].
    exists (l1 ++ l2)%list. rewrite H2, H2', Hl, Hl', !app_assoc. auto.
Qed.

Lemma log_blind_for_each {A} (l : list A) (body : A -> M unit) :
  (forall x, log_blind (body x)) -> log_blind (for_each l body).
Proof.
  intros Hb. induction l; simpl; [apply log_blind_ret|].
  apply log_blind_bind; auto.
Qed.

Lemma log_blind_for_gen (g : gen) (body : nat -> dataframe -> M unit) :
  (forall idx df, log_blind (body idx df)) -> log_blind (for_gen g body).
Proof.
  intros Hb. induction g; simpl.
  - apply log_blind_bind; auto.
  - apply log_blind_ret.
  - apply log_blind_bind; [apply log_blind_emit | intros; apply log_blind_raise].
Qed.

Lemma log_blind_df_to_sql E name df : log_blind (df_to_sql E name df).
Proof.
  intros w w' [Ht Hw]. unfold df_to_sql, table. rewrite <- Hw, <- Ht.
  destruct (e_faults E !! w_writes w); simpl;
    (split; [reflexivity|]; split; [split; reflexivity|];
     exists []; rewrite !app_nil_r; split; reflexivity).
Qed.

#[local] Hint Resolve log_blind_ret log_blind_raise log_blind_emit
  log_blind_logger log_blind_bind log_blind_try_except log_blind_for_each
  log_blind_for_gen log_blind_df_to_sql : keeps.

Lemma log_blind_to_sql E name df conn_url :
  log_blind (to_sql E name df conn_url).
Proof.
  unfold to_sql. apply log_blind_try_except; auto with keeps.
  intros []; auto with keeps.
Qed.

Lemma log_blind_load_chunk E conn_url ds_name file idx df :
  log_blind (load_chunk E conn_url ds_name file idx df).
Proof.
  unfold load_chunk. apply log_blind_try_except; auto with keeps.
  apply log_blind_bind; auto with keeps. intros _.
  apply log_blind_bind; [apply log_blind_to_sql|]. intros []; auto with keeps.
Qed.

Lemma log_blind_db_loader E src_base_dir schemas conn_url ds_name chunksize :
  log_blind (db_loader E src_base_dir schemas conn_url ds_name chunksize).
Proof.
  unfold db_loader. apply log_blind_bind; auto with keeps. intros _.
  destruct (Nat.eqb _ 0); auto with keeps.
  apply log_blind_bind; auto with keeps.
  apply log_blind_for_each. intros file. unfold load_file.
  apply log_blind_bind; auto with keeps. intros _.
  apply log_blind_for_gen. intros. apply log_blind_load_chunk.
Qed.

(** X4. A single dataset name given as a string is handled like the
    one-element list holding it. With the environment complete and the
    catalog loaded, the two runs have the same result and leave the same
    database, and their logs are equal record for record but for the
    record of line 66, which shows the selector as it was given. *)
Theorem main_single_name (E : env) (schemas : catalog) (ds : string)
    (chunksize : Z) (w : world) :
  ds <> "" ->
  Forall (fun var => environ_get E var <> "") env_vars ->
  e_schemas E !! schema_path E = Some (Some schemas) ->
  exists (r : result unit) (tables : gmap string (list dbrow)) (writes : nat)
         (l : list entry),
    main E (SelStr ds) chunksize w
    = (r, {| w_tables := tables; w_writes := writes;
             w_log := (w_log w
                       ++ [(INFO, EvSchemaLoaded);
                           (INFO, EvLoadingSpecified (SelStr ds))] ++ l)%list |})
    /\ main E (SelList [ds]) chunksize w
       = (r, {| w_tables := tables; w_writes := writes;
                w_log := (w_log w
                          ++ [(INFO, EvSchemaLoaded);
                              (INFO, EvLoadingSpecified (SelList [ds]))]
                          ++ l)%list |}).
Proof.
  intros Hds Henv Hschema. apply String.eqb_neq in Hds.
  rewrite !(main_loaded E schemas _ chunksize w Henv Hschema).
  set (w0 := log_to w [(INFO, EvSchemaLoaded)]).
  assert (forall B (k : selector -> M B),
            bind (resolve_ds_names schemas (SelStr ds)) k w0
            = k (SelStr ds) (log_to w0 [(INFO, EvLoadingSpecified (SelStr ds))]))
    as H1.
  { intros B k. unfold resolve_ds_names, falsy. rewrite Hds. reflexivity. }
  assert (forall B (k : selector -> M B),
            bind (resolve_ds_names schemas (SelList [ds])) k w0
            = k (SelList [ds])
                (log_to w0 [(INFO, EvLoadingSpecified (SelList [ds]))]))
    as H2 by reflexivity.
  rewrite H1, H2. cbn [for_each]. unfold bind.
  destruct (log_blind_db_loader E (environ_get E "SRC_BASE_DIR") schemas
              (connection_url E) ds chunksize
              (log_to w0 [(INFO, EvLoadingSpecified (SelStr ds))])
              (log_to w0 [(INFO, EvLoadingSpecified (SelList [ds]))])
              ltac:(split; reflexivity))
    as (Hr & [Ht Hw] & l & Hl1 & Hl2).
  destruct (db_loader E _ schemas _ ds chunksize
              (log_to w0 [(INFO, EvLoadingSpecified (SelStr ds))]))
    as [r1 [t1 n1 lg1]].
  destruct (db_loader E _ schemas _ ds chunksize
              (log_to w0 [(INFO, EvLoadingSpecified (SelList [ds]))]))
    as [r2 [t2 n2 lg2]].
  cbn [fst snd w_tables w_writes w_log] in *. subst r2 t2 n2 lg1 lg2.
  exists r1, t1, n1, l.
  unfold w0, log_to. cbn [w_log]. rewrite <- !app_assoc.
  destruct r1 as [[]|e]; split; reflexivity.
Qed.

Lemma main_single_name_witness :
  exists (r : result unit) (tables : gmap string (list dbrow)) (writes : nat)
         (l : list entry),
    main orders_run_env (SelStr "orders") 10000 empty_world
    = (r, {| w_tables := tables; w_writes := writes;
             w_log := [(INFO, EvSchemaLoaded);
                       (INFO, EvLoadingSpecified (SelStr "orders"))] ++ l |})
    /\ main orders_run_env (SelList ["orders"]) 10000 empty_world
       = (r, {| w_tables := tables; w_writes := writes;
                w_log := [(INFO, EvSchemaLoaded);
                          (INFO, EvLoadingSpecified (SelList ["orders"]))]
                         ++ l |}).
Proof.
  apply (main_single_name orders_run_env orders_catalog "orders" 10000
           empty_world).
  - discriminate.
  - repeat constructor; vm_compute; discriminate.
  - vm_compute. reflexivity.
Defined.

(** ** The table writer on a rejected write *)

(** X5. A write that the database rejects changes no table: [to_sql]
    raises the exception of the database, counts the attempt, and logs
    one ERROR record when the exception is the database error and nothing
    for any other exception. *)
Theorem to_sql_rejected (E : env) (name : string) (df : dataframe)
    (conn_url : string) (w : world) (e : exn) :
  e_faults E !! w_writes w = Some e ->
  let r := to_sql E name df conn_url w in
  fst r = Raise e
  /\ w_tables (snd r) = w_tables w
  /\ w_writes (snd r) = S (w_writes w)
  /\ w_log (snd r)
     = (w_log w ++ if decide (e = DatabaseError)
                   then [(ERROR, EvDbError name DatabaseError)] else [])%list.
Proof.
  intros Hfault. cbv zeta.
  unfold to_sql, try_except, bind, df_to_sql. rewrite Hfault.
  destruct e; cbn; rewrite ?app_nil_r; auto.
Qed.

Lemma to_sql_rejected_witness :
  fst (to_sql rejecting_env "orders_test" (orders_frame [["b"; "2"; "200"]])
         "postgresql://u:p@h:5432/db"
         {| w_tables := ∅; w_writes := 1; w_log := [] |})
  = Raise DatabaseError
  /\ w_tables (snd (to_sql rejecting_env "orders_test"
                      (orders_frame [["b"; "2"; "200"]])
                      "postgresql://u:p@h:5432/db"
                      {| w_tables := ∅; w_writes := 1; w_log := [] |})) = ∅.
Proof.
  pose proof (to_sql_rejected rejecting_env "orders_test"
                (orders_frame [["b"; "2"; "200"]]) "postgresql://u:p@h:5432/db"
                {| w_tables := ∅; w_writes := 1; w_log := [] |} DatabaseError) as H.
  cbv zeta in H. destruct H as (H1 & H2 & _).
  - vm_compute. reflexivity.
  - split; [exact H1 | exact H2].
Defined.

(** ** Tables a load does not touch *)

Lemma leaves_ret {A} t (a : A) : leaves t (ret a).
Proof. intros w. reflexivity. Qed.

Lemma leaves_raise {A} t e : leaves t (@raise A e).
Proof. intros w. reflexivity. Qed.

Lemma leaves_emit t logs : leaves t (emit logs).
Proof. intros w. reflexivity. Qed.

Lemma leaves_bind {A B} t (m : M A) (k : A -> M B) :
  leaves t m -> (forall a, leaves t (k a)) -> leaves t (bind m k).
Proof.
  intros Hm Hk w. unfold bind. specialize (Hm w).
  destruct (m w) as [[a|e] w1]; simpl in *; [rewrite Hk|]; exact Hm.
Qed.

Lemma leaves_try_except {A} t (m : M A) (h : exn -> M A) :
  leaves t m -> (forall e, leaves t (h e)) -> leaves t (try_except m h).
Proof.
  intros Hm Hh w. unfold try_except. specialize (Hm w).
  destruct (m w) as [[a|e] w1]; simpl in *; [|rewrite Hh]; exact Hm.
Qed.

Lemma leaves_for_each {A} t (l : list A) (body : A -> M unit) :
  (forall x, leaves t (body x)) -> leaves t (for_each l body).
Proof.
  intros Hb. induction l; simpl; [apply leaves_ret|].
  apply leaves_bind; auto.
Qed.

Lemma leaves_for_gen t (g : gen) (body : nat -> dataframe -> M unit) :
  (forall idx df, leaves t (body idx df)) -> leaves t (for_gen g body).
Proof.
  intros Hb. induction g; simpl.
  - apply leaves_bind; auto.
  - apply leaves_ret.
  - apply leaves_bind; [apply leaves_emit | intros; apply leaves_raise].
Qed.

Lemma leaves_to_sql E t name df conn_url :
  t <> name -> leaves t (to_sql E name df conn_url).
Proof.
  intros Hne. unfold to_sql. apply leaves_try_except.
  - apply leaves_bind; [|intros; apply leaves_ret].
    intros w. unfold df_to_sql. destruct (e_faults E !! w_writes w); simpl.
    + reflexivity.
    + unfold table. simpl. rewrite lookup_insert_ne by congruence. reflexivity.
  - intros []; try apply leaves_raise.
    apply leaves_bind; [apply leaves_emit | intros; apply leaves_raise].
Qed.

Lemma leaves_db_loader E t src_base_dir schemas conn_url ds_name chunksize :
  t <> ds_name ++ "_test" ->
  leaves t (db_loader E src_base_dir schemas conn_url ds_name chunksize).
Proof.
  intros Hne. unfold db_loader, logger.
  apply leaves_bind; [apply leaves_emit|]. intros _.
  destruct (Nat.eqb _ 0).
  - apply leaves_bind; [apply leaves_emit | intros; apply leaves_raise].
  - apply leaves_bind; [|intros; apply leaves_emit].
    apply leaves_for_each. intros file. unfold load_file, logger.
    apply leaves_bind; [apply leaves_emit|]. intros _.
    apply leaves_for_gen. intros idx df. unfold load_chunk, logger.
    apply leaves_try_except; [|intros; apply leaves_emit].
    apply leaves_bind; [apply leaves_emit|]. intros _.
    apply leaves_bind; [apply leaves_to_sql; exact Hne|].
    intros []; [apply leaves_emit | apply leaves_ret].
Qed.

(** X6. Loading a dataset writes to the table <dataset>_test only: every
    other table is after [db_loader] what it was before, whatever
    happens; and a whole run never changes a table whose name is not a
    dataset name followed by _test. *)
Theorem loads_touch_only_test_tables (E : env) (t : string) (w : world) :
  (forall src_base_dir schemas conn_url ds_name chunksize,
     t <> ds_name ++ "_test" ->
     table (snd (db_loader E src_base_dir schemas conn_url ds_name chunksize w)) t
     = table w t)
  /\ (forall ds_names chunksize,
        (forall ds_name, t <> ds_name ++ "_test") ->
        table (snd (main E ds_names chunksize w)) t = table w t).
Proof.
  split.
  - intros. apply leaves_db_loader. assumption.
  - intros ds_names chunksize Hne. revert w.
    change (leaves t (main E ds_names chunksize)). unfold main.
    apply leaves_bind.
    + unfold check_env_vars. apply leaves_for_each. intros var.
      destruct (String.eqb _ ""); [apply leaves_raise | apply leaves_ret].
    + intros _. apply leaves_bind.
      * unfold load_schema, logger.
        destruct (e_schemas E !! _) as [[c|]|];
          (apply leaves_bind; [apply leaves_emit|]); intros;
          try apply leaves_raise; apply leaves_ret.
      * intros schemas. apply leaves_bind.
        -- unfold resolve_ds_names, logger.
           destruct (falsy ds_names);
             (apply leaves_bind; [apply leaves_emit | intros; apply leaves_ret]).
        -- intros [| |l].
           ++ apply leaves_ret.
           ++ apply leaves_db_loader, Hne.
           ++ apply leaves_for_each. intros. apply leaves_db_loader, Hne.
Qed.

Lemma loads_touch_only_test_tables_witness :
  table (snd (main orders_run_env SelNone 10000 stocked_world)) "customers"
  = [row_of "z" 9 900].
Proof.
  destruct (loads_touch_only_test_tables orders_run_env "customers" stocked_world)
    as [_ H].
  rewrite H; [reflexivity|].
  intros ds Heq.
  repeat (destruct ds as [|? ds]; simpl in Heq; [discriminate|];
          injection Heq as _ Heq).
  destruct ds; discriminate.
Defined.

(** ** The resolver: what it returns and what it raises *)

Lemma rmap_ok {A B} (f : A -> result B) (l : list A) (ys : list B) :
  rmap f l = Ok ys -> Forall2 (fun x y => f x = Ok y) l ys.
Proof.
  revert ys. induction l as [|x l IH]; intros ys; simpl.
  - intros [= <-]. constructor.
  - destruct (f x) as [y|e] eqn:Hx; simpl; [|discriminate].
    destruct (rmap f l) as [ys'|e]; simpl; [|discriminate].
    intros [= <-]. constructor; auto.
Qed.

Lemma insert_keyed_perm {A} (x : pyval * A) l r :
  insert_keyed x l = Ok r -> Permutation (x :: l) r.
Proof.
  revert r. induction l as [|y l IH]; intros r; simpl.
  - intros [= <-]. reflexivity.
  - destruct (py_lt (fst y) (fst x)) as [[]|e]; simpl; [| |discriminate].
    + destruct (insert_keyed x l) as [r'|e]; simpl; [|discriminate].
      intros [= <-]. rewrite perm_swap. constructor. apply IH. reflexivity.
    + intros [= <-]. reflexivity.
Qed.

Lemma sort_keyed_perm {A} (l s : list (pyval * A)) :
  sort_keyed l = Ok s -> Permutation l s.
Proof.
  revert s. induction l as [|x l IH]; intros s; simpl.
  - intros [= <-]. reflexivity.
  - destruct (sort_keyed l) as [s'|e]; simpl; [|discriminate].
    intros H. apply insert_keyed_perm in H. rewrite <- H.
    constructor. apply IH. reflexivity.
Qed.

Lemma keyed_snd key (descs : list descriptor) keyed :
  Forall2 (fun x y => rbind (getitem x key) (fun k => Ok (k, x)) = Ok y)
          descs keyed ->
  map snd keyed = descs
  /\ Forall2 (fun d y => d !! key = Some (fst y)) descs keyed.
Proof.
  induction 1 as [|d y descs keyed Hd _ [IH1 IH2]]; [split; constructor|].
  unfold getitem in Hd. destruct (d !! key) as [v|] eqn:Hv; simpl in Hd;
    [|discriminate].
  injection Hd as <-. simpl. rewrite IH1. split; [reflexivity|].
  constructor; assumption.
Qed.

(** X8. When the resolver returns, it returns the names of the dataset's
    descriptors, each descriptor once: the result is a permutation of the
    names in catalog order, and every descriptor has the sort key and a
    name. *)
Theorem get_column_names_permutation (schemas : catalog) (ds_name key : string)
    (descs : list descriptor) (names : list pyval) :
  schemas_getitem schemas ds_name = Ok descs ->
  snd (get_column_names schemas ds_name key) = Ok names ->
  Permutation (map name_of descs) names
  /\ length names = length descs
  /\ Forall (fun d => is_Some (d !! key) /\ is_Some (d !! column_name)) descs.
Proof.
  intros Hds Hres. unfold get_column_names, get_column_names_try, sorted in Hres.
  rewrite Hds in Hres. simpl in Hres.
  destruct (rmap _ descs) as [keyed|e] eqn:Hkeyed; simpl in Hres.
  2:{ destruct e; discriminate. }
  destruct (sort_keyed keyed) as [s|e] eqn:Hsort; simpl in Hres.
  2:{ destruct e; discriminate. }
  destruct (rmap _ (map snd s)) as [ns|e] eqn:Hnames; simpl in Hres.
  2:{ destruct e; discriminate. }
  injection Hres as <-.
  apply rmap_ok, keyed_snd in Hkeyed as [Hsnd Hkeys].
  apply sort_keyed_perm in Hsort.
  apply rmap_ok in Hnames.
  assert (Permutation descs (map snd s)) as Hperm
    by (rewrite <- Hsnd; apply Permutation_map; exact Hsort).
  assert (ns = map name_of (map snd s)
          /\ Forall (fun d => is_Some (d !! column_name)) (map snd s))
    as [-> Hhave].
  { clear -Hnames. induction Hnames as [|d n l ns Hd _ [IH1 IH2]];
      [split; constructor|].
    unfold getitem in Hd. destruct (d !! column_name) as [v|] eqn:Hv;
      [|discriminate].
    injection Hd as <-. split.
    - simpl. unfold name_of at 1. rewrite Hv. simpl. rewrite IH1. reflexivity.
    - constructor; [eauto | assumption]. }
  split; [apply Permutation_map; exact Hperm|]. split.
  - rewrite length_map. symmetry. apply Permutation_length. exact Hperm.
  - rewrite <- Hperm in Hhave. apply Forall_forall. intros d Hd. split.
    + clear -Hkeys Hd. induction Hkeys as [|d' y l k Hy _ IH]; [inversion Hd|].
      apply elem_of_cons in Hd as [->|Hd]; eauto.
    + rewrite Forall_forall in Hhave. auto.
Qed.

Lemma get_column_names_permutation_witness :
  Permutation
    (map name_of [mk_descriptor "id" 2; mk_descriptor "name" 0;
                  mk_descriptor "amount" 1])
    [VStr "name"; VStr "amount"; VStr "id"].
Proof.
  refine (proj1 (get_column_names_permutation orders_catalog "orders"
                   column_position _ _ _ _)).
  - reflexivity.
  - vm_compute. reflexivity.
Defined.

(** ** A catalog already in order *)

Lemma insert_keyed_least {A} (x : pyval * A) (l : list (pyval * A)) :
  has_int_key x -> Forall has_int_key l -> HdRel kle x l ->
  insert_keyed x l = Ok (x :: l).
Proof.
  intros Hx Hl Hhd. destruct Hhd as [|y l Hxy]; [reflexivity|].
  inversion Hl as [|? ? Hy _]; subst. simpl.
  rewrite (py_lt_int x y Hx Hy). simpl.
  unfold kle in Hxy. destruct (Z.ltb_spec (ikey y) (ikey x)); [lia|reflexivity].
Qed.

Lemma sort_keyed_sorted {A} (l : list (pyval * A)) :
  Forall has_int_key l -> Sorted kle l -> sort_keyed l = Ok l.
Proof.
  intros Hl Hs. induction Hs as [|x l Hs IH Hhd]; [reflexivity|].
  inversion Hl as [|? ? Hx Hl']; subst. simpl.
  rewrite (IH Hl'). simpl. apply insert_keyed_least; assumption.
Qed.

Lemma keyed_by_sorted key (descs : list descriptor) :
  Sorted Z.le (map (int_at key) descs) -> Sorted kle (map (keyed_by key) descs).
Proof.
  induction descs as [|d descs IH]; simpl; intros Hs; [constructor|].
  inversion Hs as [|? ? Hs' Hhd]; subst. constructor; [auto|].
  destruct descs as [|d' descs]; simpl in *; constructor.
  inversion Hhd; subst. assumption.
Qed.

(** X9. A dataset whose valid descriptors are already listed in
    non-decreasing order of column_position resolves to its names in
    catalog order: sorting changes nothing, and nothing is logged. *)
Theorem get_column_names_presorted (schemas : catalog) (ds_name : string)
    (descs : list descriptor) :
  schemas_getitem schemas ds_name = Ok descs ->
  Forall valid_descriptor descs ->
  Sorted Z.le (map position_of descs) ->
  get_column_names schemas ds_name column_position
  = ([], Ok (map name_of descs)).
Proof.
  intros Hds Hvalid Hsorted.
  unfold get_column_names, get_column_names_try, sorted. rewrite Hds. simpl.
  rewrite (rmap_map _ (keyed_by column_position)).
  2:{ eapply Forall_impl; [exact Hvalid|]. intros d [[z Hz] _]. simpl.
      unfold getitem, keyed_by, int_at. rewrite Hz. reflexivity. }
  simpl. rewrite sort_keyed_sorted.
  - simpl. rewrite map_map. simpl. rewrite map_id.
    rewrite (rmap_map _ name_of); [reflexivity|].
    eapply Forall_impl; [exact Hvalid|]. intros d [_ [s Hs]].
    unfold getitem, name_of. rewrite Hs. reflexivity.
  - clear. induction descs; constructor; auto. eexists. reflexivity.
  - apply keyed_by_sorted. exact Hsorted.
Qed.

Lemma get_column_names_presorted_witness :
  get_column_names tie_catalog "t" column_position
  = ([], Ok (map name_of tie_descs)).
Proof.
  apply (get_column_names_presorted tie_catalog "t" tie_descs).
  - reflexivity.
  - repeat constructor; eexists; vm_compute; reflexivity.
  - change (map position_of tie_descs) with [1; 1]. repeat constructor. lia.
Defined.

(** ** Positions of different types *)

Lemma insert_keyed_same_kind {A} (x y : pyval * A) l r :
  insert_keyed x (y :: l) = Ok r ->
  (has_int_key x /\ has_int_key y) \/ (has_str_key x /\ has_str_key y).
Proof.
  simpl. unfold has_int_key, has_str_key.
  destruct (fst y) as [b|t], (fst x) as [a|s]; simpl; try discriminate; eauto.
Qed.

Lemma sort_keyed_homogeneous {A} (l s : list (pyval * A)) :
  sort_keyed l = Ok s -> Forall has_int_key l \/ Forall has_str_key l.
Proof.
  revert s. induction l as [|x l IH]; intros s; simpl; [auto|].
  destruct (sort_keyed l) as [s'|e] eqn:Hs'; simpl; [|discriminate].
  intros Hins. destruct s' as [|y s''].
  - apply sort_keyed_perm, Permutation_sym, Permutation_nil in Hs'. subst l.
    unfold has_int_key, has_str_key.
    destruct (fst x) eqn:Hx; [left|right]; repeat constructor; eauto.
  - assert (y ∈ l) as Hy.
    { apply sort_keyed_perm in Hs'. rewrite Hs'. left. }
    apply insert_keyed_same_kind in Hins.
    destruct (IH _ eq_refl) as [Hall|Hall]; [left|right];
      (constructor; [|exact Hall]);
      rewrite Forall_forall in Hall; specialize (Hall y Hy);
      destruct Hins as [[Hx Hy']|[Hx Hy']]; try exact Hx;
      destruct Hall as [a Ha], Hy' as [b Hb]; congruence.
Qed.

(** X13. When every descriptor of a dataset has the sort key, one of
    them under an integer and another under a string, the resolver
    raises TypeError from the comparison; the resolver handles KeyError
    only, so it logs nothing, and no name is returned. *)
Theorem get_column_names_mixed_positions (schemas : catalog)
    (ds_name key : string) (descs : list descriptor) :
  schemas_getitem schemas ds_name = Ok descs ->
  Forall (fun d => is_Some (d !! key)) descs ->
  Exists (has_int key) descs ->
  Exists (has_str key) descs ->
  get_column_names schemas ds_name key = ([], Raise TypeError).
Proof.
  intros Hds Hkeys Hint Hstr.
  unfold get_column_names, get_column_names_try, sorted. rewrite Hds. simpl.
  rewrite (rmap_map _ (fun d => (default (VInt 0) (d !! key), d))).
  2:{ eapply Forall_impl; [exact Hkeys|]. intros d [v Hv]. simpl.
      unfold getitem. rewrite Hv. reflexivity. }
  simpl.
  destruct (sort_keyed _) as [s|e] eqn:Hsort; simpl.
  - exfalso. apply sort_keyed_homogeneous in Hsort as [Hall|Hall];
      rewrite Forall_map, Forall_forall in Hall.
    + apply Exists_exists in Hstr as (d & Hd & [t Ht]).
      destruct (Hall d Hd) as [z Hz]. simpl in Hz. rewrite Ht in Hz. discriminate.
    + apply Exists_exists in Hint as (d & Hd & [z Hz]).
      destruct (Hall d Hd) as [t Ht]. simpl in Ht. rewrite Hz in Ht. discriminate.
  - apply sort_keyed_raise in Hsort. subst e. reflexivity.
Qed.

Lemma get_column_names_mixed_positions_witness :
  get_column_names mixed_catalog "t" column_position = ([], Raise TypeError).
Proof.
  eapply (get_column_names_mixed_positions mixed_catalog "t" column_position).
  - reflexivity.
  - repeat constructor; eexists; vm_compute; reflexivity.
  - apply Exists_cons_hd. eexists. vm_compute. reflexivity.
  - apply Exists_cons_tl, Exists_cons_hd. eexists. vm_compute. reflexivity.
Defined.

(** ** The rows a load delivers *)

Lemma written_clean E n (dfs : list dataframe) :
  (forall i, e_faults E !! i = None) ->
  written E n dfs = concat (map rows_of dfs).
Proof.
  intros Hnone. revert n. induction dfs as [|df dfs IH]; intros n; simpl.
  - reflexivity.
  - rewrite Hnone, IH. reflexivity.
Qed.

Lemma rows_of_chunks (cols : list pyval) (kinds : list kind)
    (chunks : list (nat * dataframe)) :
  length kinds = length cols ->
  Forall (fun x => df_columns (snd x) = cols) chunks ->
  uniform kinds (concat (map (fun x => df_rows (snd x)) chunks)) ->
  concat (map rows_of (map snd chunks))
  = map (fun r => zip cols (map cell_of r))
        (concat (map (fun x => df_rows (snd x)) chunks)).
Proof.
  intros Hlen Hcols. induction Hcols as [|x chunks Hx _ IH]; intros Hu;
    [reflexivity|].
  cbn [map concat] in *. apply Forall_app in Hu as [Hu1 Hu2].
  rewrite List.map_app, <- (IH Hu2). f_equal.
  destruct x as [i [c r]]. cbn [snd df_columns df_rows] in *. subst c.
  apply (rows_of_uniform cols kinds r Hlen Hu1).
Qed.

Lemma rows_in_rows (rows : list (list string)) : rows_in (map Row rows) = rows.
Proof.
  unfold rows_in. induction rows as [|r rows IH]; [reflexivity|].
  cbn [map flat_map app]. rewrite IH. reflexivity.
Qed.

(** The rows of a file with uniform columns, whatever the chunk size. *)
Lemma read_csv_rows E file schemas ds_name chunksize cols kinds rows :
  snd (get_column_names schemas ds_name column_position) = Ok cols ->
  NoDup cols ->
  (1 <= chunksize) ->
  length kinds = length cols ->
  e_files E !! file = Some (Text (map Row rows)) ->
  uniform kinds rows ->
  gen_raises (read_csv E file schemas ds_name chunksize) = None
  /\ concat (map rows_of (frames (read_csv E file schemas ds_name chunksize)))
     = file_rows E cols file.
Proof.
  intros Hcols Hnd Hc Hlen Hfile Hu. unfold file_rows, read_csv. rewrite Hfile.
  rewrite rows_in_rows.
  destruct (get_column_names schemas ds_name column_position) as [logs r].
  simpl in Hcols. subst r. unfold pd_read_csv.
  assert ((chunksize <? 1) = false) as -> by lia.
  rewrite (bool_decide_eq_true_2 _ Hnd), Hfile. cbn [negb r_pending].
  destruct rows as [|row0 rest] eqn:Hrows.
  - split; reflexivity.
  - rewrite <- Hrows in *. rewrite length_map.
    destruct (enumerate_reader_chunks file cols (Z.to_nat chunksize) ltac:(lia)
                (2 + length rows) rows 0%nat true)
      as (Hr & Hn & Hsz & Hcat); [lia | rewrite Hrows; discriminate |].
    unfold reader_on in Hr, Hn, Hsz, Hcat.
    split; [exact Hr|]. unfold frames.
    rewrite (rows_of_chunks cols kinds), Hcat; [reflexivity | exact Hlen | |].
    + apply Forall_lookup_2. intros i x Hx.
      destruct (Hsz i) as (df & Hlk & Hdf & _).
      { rewrite <- Hn. eapply lookup_lt_Some, Hx. }
      rewrite Hx in Hlk. injection Hlk as ->. exact Hdf.
    + rewrite Hcat. exact Hu.
Qed.

Lemma attempted_rows E schemas ds_name chunksize cols kinds
    (files : list string) :
  snd (get_column_names schemas ds_name column_position) = Ok cols ->
  NoDup cols ->
  (1 <= chunksize) ->
  length kinds = length cols ->
  Forall (fun file => exists rows, e_files E !! file = Some (Text (map Row rows))
                                   /\ uniform kinds rows) files ->
  first_raise (gens E schemas ds_name chunksize files) = None
  /\ concat (map rows_of (attempted (gens E schemas ds_name chunksize files)))
     = concat (map (file_rows E cols) files).
Proof.
  intros Hcols Hnd Hc Hlen Hfiles. unfold gens.
  induction Hfiles as [|file files (rows & Hfile & Hu) _ [IH1 IH2]]; simpl.
  - split; reflexivity.
  - destruct (read_csv_rows E file schemas ds_name chunksize cols kinds rows
                Hcols Hnd Hc Hlen Hfile Hu) as [Hr Hrows].
    rewrite Hr. split; [exact IH1|].
    rewrite List.map_app, concat_app, Hrows, IH2. reflexivity.
Qed.

Lemma cell_of_determined f : kind_of f <> KOther -> determined (cell_of f).
Proof.
  unfold cell_of, kind_of. destruct (int_literal f) as [z|] eqn:Hint.
  - intros _. cbn [cell_in]. rewrite Hint. exact I.
  - destruct (is_word f) eqn:Hw; [|congruence].
    intros _. cbn [cell_in]. rewrite Hw. exact I.
Qed.

Lemma row_determined (cols : list pyval) (kinds : list kind) (r : list string) :
  Forall2 (fun k f => k <> KOther /\ kind_of f = k) kinds r ->
  Forall (fun x => determined (snd x)) (zip cols (map cell_of r)).
Proof.
  intros Hr. revert cols.
  induction Hr as [|k f kinds r [Hk Hkf] _ IH]; intros cols.
  - destruct cols; constructor.
  - destruct cols as [|c cols]; [constructor|].
    cbn [map zip zip_with]. constructor.
    + cbn [snd]. apply cell_of_determined. rewrite Hkf. exact Hk.
    + apply IH.
Qed.

Lemma file_rows_determined E (cols : list pyval) (kinds : list kind) file :
  (exists rows, e_files E !! file = Some (Text (map Row rows))
                /\ uniform kinds rows) ->
  Forall (Forall (fun x => determined (snd x))) (file_rows E cols file).
Proof.
  intros (rows & Hfile & Hu). unfold file_rows. rewrite Hfile, rows_in_rows.
  apply List.Forall_map. eapply Forall_impl; [exact Hu|].
  intros r Hr. apply (row_determined cols kinds r Hr).
Qed.

(** X7. When the database rejects no write, every file of the dataset
    is read without failure and each column holds integer literals
    throughout or words throughout, the loader ends normally and the
    table <dataset>_test receives one row for each data line, file after
    file in listing order and line after line in file order, under the
    resolved column names, the integer literals as integers and the
    words as strings: no value is left undetermined. The chunk size has
    no influence on these rows. *)
Theorem db_loader_delivers_rows (E : env) (src_base_dir : string)
    (schemas : catalog) (conn_url ds_name : string) (chunksize : Z) (w : world)
    (cols : list pyval) (kinds : list kind) :
  let files := glob E (src_base_dir ++ "/" ++ ds_name ++ "/part-*") in
  snd (get_column_names schemas ds_name column_position) = Ok cols ->
  NoDup cols ->
  (1 <= chunksize) ->
  files <> [] ->
  length kinds = length cols ->
  Forall (fun file => exists rows, e_files E !! file = Some (Text (map Row rows))
                                   /\ uniform kinds rows) files ->
  (forall n, e_faults E !! n = None) ->
  let r := db_loader E src_base_dir schemas conn_url ds_name chunksize w in
  fst r = Ok tt
  /\ table (snd r) (ds_name ++ "_test")
     = (table w (ds_name ++ "_test") ++ concat (map (file_rows E cols) files))%list
  /\ Forall (Forall (fun x => determined (snd x)))
            (concat (map (file_rows E cols) files)).
Proof.
  cbv zeta. intros Hcols Hnd Hc Hne Hlen Hfiles Hnone.
  destruct (db_loader_effect E schemas conn_url ds_name chunksize src_base_dir w Hne)
    as (w' & Hrun & (_ & Ht & _) & _).
  destruct (attempted_rows E schemas ds_name chunksize cols kinds _ Hcols Hnd Hc
              Hlen Hfiles) as [Hraise Hrows].
  rewrite Hrun. cbn [fst snd]. rewrite Ht, (written_clean E _ _ Hnone), Hraise, Hrows.
  split; [reflexivity|]. split; [reflexivity|].
  apply Forall_concat, List.Forall_map.
  eapply Forall_impl; [exact Hfiles|].
  intros file Hfile. apply (file_rows_determined E cols kinds file Hfile).
Qed.

Lemma db_loader_delivers_rows_witness :
  table (snd (db_loader orders_env "/data" orders_catalog
                "postgresql://u:p@h:5432/db" "orders" 1 empty_world))
        "orders_test"
  = orders_rows
  /\ table (snd (db_loader orders_env "/data" orders_catalog
                   "postgresql://u:p@h:5432/db" "orders" 10000 empty_world))
           "orders_test"
     = orders_rows.
Proof.
  assert (forall c, (1 <= c) ->
            table (snd (db_loader orders_env "/data" orders_catalog
                          "postgresql://u:p@h:5432/db" "orders" c empty_world))
                  "orders_test" = orders_rows) as H.
  { intros c Hc.
    pose proof (db_loader_delivers_rows orders_env "/data" orders_catalog
                  "postgresql://u:p@h:5432/db" "orders" c empty_world
                  [VStr "name"; VStr "amount"; VStr "id"] [KStr; KInt; KInt]) as H.
    cbv zeta in H. destruct H as (_ & H & _).
    - vm_compute. reflexivity.
    - apply (bool_decide_unpack _). vm_compute. exact I.
    - exact Hc.
    - vm_compute. discriminate.
    - reflexivity.
    - vm_compute. repeat constructor.
      exists [["a"; "1"; "100"]; ["b"; "2"; "200"]]. split; [reflexivity|].
      repeat constructor; discriminate.
    - intros n. apply lookup_empty.
    - change (String.append "orders" "_test") with "orders_test" in H.
      rewrite H. vm_compute. reflexivity. }
  split; [apply (H 1) | apply (H 10000)]; lia.
Defined.

(** ** A line the library cannot parse *)

(** X11. Reading is lazy about errors: when the parsing library meets a
    line it cannot parse after the rows [good], the reader yields the
    full chunks that precede the chunk holding that line, length good /
    C of them, with the rows of the file up to that chunk in order, then
    logs the ERROR record of its second handler and raises the parse
    error; no row of that chunk or of a later one is delivered. *)
Theorem read_csv_parse_error (E : env) (csv_path : string) (schema : catalog)
    (ds_name : string) (chunksize : Z) (cols : list pyval)
    (good : list (list string)) (rest : list data_line) :
  snd (get_column_names schema ds_name column_position) = Ok cols ->
  NoDup cols ->
  e_files E !! csv_path
  = Some (Text (map Row good ++ Bad ParserError :: rest)) ->
  (1 <= chunksize) ->
  let g := read_csv E csv_path schema ds_name chunksize in
  let c := Z.to_nat chunksize in
  let k := (length good / c)%nat in
  gen_end g = GRaise [(ERROR, EvUnparsable csv_path)] ParserError
  /\ length (gen_chunks g) = k
  /\ Forall (fun x => df_columns (snd x) = cols /\ shape0 (snd x) = c)
            (gen_chunks g)
  /\ concat (map (fun x => df_rows (snd x)) (gen_chunks g))
     = take (k * c) good.
Proof.
  intros Hcols Hnd Hfile Hc. cbv zeta. unfold read_csv.
  destruct (get_column_names schema ds_name column_position) as [logs r].
  simpl in Hcols. subst r. unfold pd_read_csv.
  assert ((chunksize <? 1) = false) as -> by lia.
  rewrite (bool_decide_eq_true_2 _ Hnd), Hfile. cbn [negb r_pending].
  apply (enumerate_reader_gives_up csv_path cols (Z.to_nat chunksize)
           ltac:(lia) _ good ParserError rest 0%nat true).
  rewrite length_app, length_map. simpl. lia.
Qed.

Lemma read_csv_parse_error_witness :
  gen_end (read_csv unparsable_env "/data/orders/part-00000" orders_catalog
             "orders" 1)
  = GRaise [(ERROR, EvUnparsable "/data/orders/part-00000")] ParserError
  /\ concat (map (fun x => df_rows (snd x))
               (gen_chunks (read_csv unparsable_env "/data/orders/part-00000"
                              orders_catalog "orders" 1)))
     = [["a"; "1"; "100"]].
Proof.
  pose proof (read_csv_parse_error unparsable_env "/data/orders/part-00000"
                orders_catalog "orders" 1 [VStr "name"; VStr "amount"; VStr "id"]
                [["a"; "1"; "100"]] [Row ["c"; "3"; "300"]]) as H.
  cbv zeta in H. destruct H as (H1 & _ & _ & H4).
  - vm_compute. reflexivity.
  - apply (bool_decide_unpack _). vm_compute. exact I.
  - vm_compute. reflexivity.
  - lia.
  - split; [exact H1 | exact H4].
Defined.

(** ** Failures are logged before they leave the loader *)

Lemma read_csv_except_logged csv_path e : raise_logged (read_csv_except csv_path e).
Proof.
  destruct e; cbn;
    first [ exists [], (ERROR, EvFileNotFound csv_path);
            split; [reflexivity | left; reflexivity]
          | exists [], (ERROR, EvUnparsable csv_path);
            split; [reflexivity | left; reflexivity]
          | eexists [], (CRITICAL, _); split; [reflexivity | right; reflexivity] ].
Qed.

Lemma enumerate_reader_logged fuel csv_path first idx r :
  raise_logged (enumerate_reader fuel csv_path first idx r).
Proof.
  revert first idx r. induction fuel as [|fuel IH]; intros first idx r; simpl.
  - exact I.
  - destruct (next_chunk first r) as [[[df r']|]|e]; simpl.
    + apply IH.
    + exact I.
    + apply read_csv_except_logged.
Qed.

Lemma prepend_logs_logged logs g : raise_logged g -> raise_logged (prepend_logs logs g).
Proof.
  destruct g as [| |logs' e]; simpl; auto.
  intros (l & x & -> & Hx). exists (logs ++ l)%list, x.
  rewrite app_assoc. auto.
Qed.

Lemma read_csv_logged E csv_path schema ds_name chunksize :
  raise_logged (read_csv E csv_path schema ds_name chunksize).
Proof.
  unfold read_csv.
  destruct (get_column_names schema ds_name column_position) as [logs [cols|e]].
  - destruct (pd_read_csv E csv_path cols chunksize) as [rd|e].
    + apply enumerate_reader_logged.
    + apply read_csv_except_logged.
  - apply prepend_logs_logged, read_csv_except_logged.
Qed.

Lemma log_extends_refl w : log_extends w w.
Proof. exists []. rewrite app_nil_r. reflexivity. Qed.

Lemma log_extends_trans w1 w2 w3 :
  log_extends w1 w2 -> log_extends w2 w3 -> log_extends w1 w3.
Proof.
  intros [l1 H1] [l2 H2]. exists (l1 ++ l2)%list.
  rewrite H2, H1, app_assoc. reflexivity.
Qed.

Lemma ends_in_alarm_after w1 w2 w3 :
  log_extends w1 w2 -> ends_in_alarm w2 w3 -> ends_in_alarm w1 w3.
Proof.
  intros [l1 H1] (l2 & x & H2 & Hx). exists (l1 ++ l2)%list, x.
  rewrite H2, H1, <- !app_assoc. auto.
Qed.

Lemma for_gen_logged E conn_url ds_name file g w :
  raise_logged g ->
  log_extends w (snd (for_gen g (load_chunk E conn_url ds_name file) w))
  /\ (forall e, fst (for_gen g (load_chunk E conn_url ds_name file) w) = Raise e ->
        ends_in_alarm w (snd (for_gen g (load_chunk E conn_url ds_name file) w))).
Proof.
  revert w. induction g as [idx df rest IH| |logs e]; intros w Hg; simpl in Hg.
  - destruct (load_chunk_effect E conn_url ds_name file idx df w)
      as (w1 & Hc & _ & (log & Hlog & _)).
    cbn [for_gen]. rewrite (bind_ok _ _ _ _ _ Hc).
    assert (log_extends w w1) as H01 by (exists log; exact Hlog).
    destruct (IH w1 Hg) as [Hext Hal]. split.
    + eapply log_extends_trans; eassumption.
    + intros e He. eapply ends_in_alarm_after; [exact H01 | apply (Hal e He)].
  - cbn. split; [apply log_extends_refl | discriminate].
  - destruct Hg as (l & x & -> & Hx). cbn. split.
    + eexists. reflexivity.
    + intros _ _. exists l, x. auto.
Qed.

Lemma for_each_file_logged E schemas conn_url ds_name chunksize files w :
  log_extends w
    (snd (for_each files (load_file E schemas conn_url ds_name chunksize) w))
  /\ (forall e,
        fst (for_each files (load_file E schemas conn_url ds_name chunksize) w)
        = Raise e ->
        ends_in_alarm w
          (snd (for_each files (load_file E schemas conn_url ds_name chunksize) w))).
Proof.
  revert w. induction files as [|file files IH]; intros w.
  - cbn. split; [apply log_extends_refl | discriminate].
  - cbn [for_each]. unfold bind, load_file at 1 3 5, logger, emit, bind.
    cbn [record_of enabled].
    set (w0 := {| w_tables := w_tables w; w_writes := w_writes w;
                  w_log := (w_log w ++ [(INFO, EvFileStart file ds_name)])%list |}).
    assert (log_extends w w0) as H0 by (eexists; reflexivity).
    destruct (for_gen_logged E conn_url ds_name file
                (read_csv E file schemas ds_name chunksize) w0
                (read_csv_logged E file schemas ds_name chunksize)) as [Hext Hal].
    destruct (for_gen _ _ w0) as [[[]|e] w1] eqn:Hgen; cbn [fst snd] in *.
    + destruct (IH w1) as [Hext' Hal']. split.
      * eapply log_extends_trans; [|exact Hext'].
        eapply log_extends_trans; eassumption.
      * intros e He. eapply ends_in_alarm_after; [|apply (Hal' e He)].
        eapply log_extends_trans; eassumption.
    + split.
      * eapply log_extends_trans; eassumption.
      * intros e' _. eapply ends_in_alarm_after; [exact H0 | apply (Hal e eq_refl)].
Qed.

(** [db_loader], step by step. *)
Lemma db_loader_steps E src_base_dir schemas conn_url ds_name chunksize w :
  db_loader E src_base_dir schemas conn_url ds_name chunksize w
  = if Nat.eqb (length (glob E (src_base_dir ++ "/" ++ ds_name ++ "/part-*"))) 0
    then (Raise (ValueError ("No files found for " ++ ds_name)),
          log_to (log_to w [(INFO, EvSearching ds_name)])
                 [(ERROR, EvNoFiles ds_name)])
    else match for_each (glob E (src_base_dir ++ "/" ++ ds_name ++ "/part-*"))
                        (load_file E schemas conn_url ds_name chunksize)
                        (log_to w [(INFO, EvSearching ds_name)]) with
         | (Ok _, w1) => (Ok tt, log_to w1 [(INFO, EvFinished ds_name)])
         | (Raise e, w1) => (Raise e, w1)
         end.
Proof.
  unfold db_loader, bind at 1. unfold logger at 1, emit.
  destruct (Nat.eqb _ 0); reflexivity.
Qed.

(** X12. Whatever the loader's outcome, its log starts with the search
    record; when it returns, the last record is the INFO record that all
    files were processed; when it raises, the last record is an ERROR or
    CRITICAL record: no exception leaves [db_loader] without having been
    logged just before. *)
Theorem db_loader_outcome_logged (E : env) (src_base_dir : string)
    (schemas : catalog) (conn_url ds_name : string) (chunksize : Z) (w : world) :
  let r := db_loader E src_base_dir schemas conn_url ds_name chunksize w in
  (fst r = Ok tt ->
   exists l, w_log (snd r)
             = (w_log w ++ (INFO, EvSearching ds_name) :: l
                  ++ [(INFO, EvFinished ds_name)])%list)
  /\ (forall e, fst r = Raise e ->
        exists l x, w_log (snd r)
                    = (w_log w ++ (INFO, EvSearching ds_name) :: l ++ [x])%list
                    /\ is_alarm x).
Proof.
  cbv zeta. rewrite db_loader_steps.
  destruct (Nat.eqb _ 0).
  - cbn. split; [discriminate|].
    intros e _. exists [], (ERROR, EvNoFiles ds_name).
    rewrite <- app_assoc. split; [reflexivity | left; reflexivity].
  - destruct (for_each_file_logged E schemas conn_url ds_name chunksize
                (glob E (src_base_dir ++ "/" ++ ds_name ++ "/part-*"))
                (log_to w [(INFO, EvSearching ds_name)]))
      as [[l Hext] Hal].
    destruct (for_each _ _ (log_to w [(INFO, EvSearching ds_name)]))
      as [[[]|e] w1]; cbn [fst snd] in *.
    + split; [|discriminate]. intros _. exists l. cbn. rewrite Hext. cbn.
      rewrite <- !app_assoc. reflexivity.
    + split; [discriminate|]. intros e' _.
      destruct (Hal e eq_refl) as (l' & x & Hlog & Hx).
      exists l', x. split; [|exact Hx]. rewrite Hlog. cbn.
      rewrite <- !app_assoc. reflexivity.
Qed.

Lemma db_loader_outcome_logged_witness :
  exists l x,
    w_log (snd dangling_run)
    = ((INFO, EvSearching "orders") :: l ++ [x])%list /\ is_alarm x.
Proof.
  destruct (db_loader_outcome_logged dangling_env "/data" orders_catalog
              "postgresql://u:p@h:5432/db" "orders" 10000 empty_world)
    as [_ H].
  apply (H (FileNotFoundError "/data/orders/part-00000")).
  vm_compute. reflexivity.
Defined.

(** ** A reader that fails at the first file *)

Lemma db_loader_first_file_raises E src_base_dir schemas conn_url ds_name
    chunksize w file rest logs e :
  glob E (src_base_dir ++ "/" ++ ds_name ++ "/part-*") = file :: rest ->
  read_csv E file schemas ds_name chunksize = GRaise logs e ->
  db_loader E src_base_dir schemas conn_url ds_name chunksize w
  = (Raise e,
     log_to (log_to (log_to w [(INFO, EvSearching ds_name)])
                    [(INFO, EvFileStart file ds_name)]) logs).
Proof.
  intros Hglob Hgen. rewrite db_loader_steps, Hglob. cbn [length Nat.eqb for_each].
  unfold bind, load_file, bind, logger, emit. rewrite Hgen. reflexivity.
Qed.

(** X10. The chunk size is not validated by the program: with a chunk
    size below 1 the reader of the first listed file fails before
    anything is read, whatever the catalog and the file, and the loader
    raises the generic exception without a single write. *)
Theorem db_loader_bad_chunksize (E : env) (src_base_dir : string)
    (schemas : catalog) (conn_url ds_name : string) (chunksize : Z) (w : world) :
  (chunksize < 1) ->
  glob E (src_base_dir ++ "/" ++ ds_name ++ "/part-*") <> [] ->
  let r := db_loader E src_base_dir schemas conn_url ds_name chunksize w in
  fst r = Raise GenericException
  /\ w_tables (snd r) = w_tables w
  /\ w_writes (snd r) = w_writes w.
Proof.
  intros Hc Hglob. cbv zeta.
  destruct (glob E (src_base_dir ++ "/" ++ ds_name ++ "/part-*"))
    as [|file rest] eqn:Hfiles; [congruence|].
  assert (exists logs,
            read_csv E file schemas ds_name chunksize = GRaise logs GenericException)
    as [logs Hgen].
  { unfold read_csv, get_column_names.
    destruct (get_column_names_try schemas ds_name column_position) as [cols|e] eqn:Ht.
    - unfold pd_read_csv. assert ((chunksize <? 1) = true) as -> by lia.
      eexists. reflexivity.
    - apply get_column_names_try_raise in Ht as [[k ->]| ->]; eexists; reflexivity. }
  rewrite (db_loader_first_file_raises E src_base_dir schemas conn_url ds_name
             chunksize w file rest logs GenericException Hfiles Hgen).
  auto.
Qed.

Lemma db_loader_bad_chunksize_witness :
  fst (db_loader orders_env "/data" orders_catalog "postgresql://u:p@h:5432/db"
         "orders" 0 empty_world) = Raise GenericException
  /\ w_writes (snd (db_loader orders_env "/data" orders_catalog
                      "postgresql://u:p@h:5432/db" "orders" 0 empty_world))
     = 0%nat.
Proof.
  pose proof (db_loader_bad_chunksize orders_env "/data" orders_catalog
                "postgresql://u:p@h:5432/db" "orders" 0 empty_world) as H.
  cbv zeta in H. destruct H as (H1 & _ & H3).
  - lia.
  - vm_compute. discriminate.
  - split; [exact H1 | exact H3].
Defined.

(** X14. Loading a dataset that the catalog does not define: the files
    are looked for first, so without files the loader raises the
    no-files ValueError; with files, the resolver's KeyError for the
    dataset name is logged, turned into the generic exception by the
    reader of the first file, and raised by the loader, which writes
    nothing. *)
Theorem db_loader_unknown_dataset (E : env) (src_base_dir : string)
    (schemas : catalog) (conn_url ds_name : string) (chunksize : Z) (w : world) :
  ~ In ds_name (keys schemas) ->
  let files := glob E (src_base_dir ++ "/" ++ ds_name ++ "/part-*") in
  let r := db_loader E src_base_dir schemas conn_url ds_name chunksize w in
  (files = [] -> fst r = Raise (ValueError ("No files found for " ++ ds_name)))
  /\ (forall file rest, files = file :: rest ->
        r = (Raise GenericException,
             log_to w [(INFO, EvSearching ds_name);
                       (INFO, EvFileStart file ds_name);
                       (ERROR, EvMalformedSchema ds_name column_position
                                 (KeyError ds_name));
                       (CRITICAL, EvUnhandledRead file (KeyError ds_name))])).
Proof.
  intros Habs. cbv zeta. split.
  - intros Hnone. rewrite db_loader_steps, Hnone. reflexivity.
  - intros file rest Hfiles.
    assert (schemas_getitem schemas ds_name = Raise (KeyError ds_name)) as Hget.
    { destruct (schemas_getitem schemas ds_name) as [descs|e] eqn:Hd.
      - exfalso. apply Habs. eapply schemas_getitem_present, Hd.
      - apply schemas_getitem_absent in Hd as [-> _]. reflexivity. }
    rewrite (db_loader_first_file_raises E src_base_dir schemas conn_url ds_name
               chunksize w file rest
               [(ERROR, EvMalformedSchema ds_name column_position (KeyError ds_name));
                (CRITICAL, EvUnhandledRead file (KeyError ds_name))]
               GenericException Hfiles).
    + unfold log_to. cbn. rewrite <- !app_assoc. reflexivity.
    + unfold read_csv, get_column_names, get_column_names_try.
      rewrite Hget. reflexivity.
Qed.

Lemma db_loader_unknown_dataset_witness :
  fst (db_loader orders_env "/data" [] "postgresql://u:p@h:5432/db" "orders"
         10000 empty_world) = Raise GenericException
  /\ w_writes (snd (db_loader orders_env "/data" [] "postgresql://u:p@h:5432/db"
                      "orders" 10000 empty_world)) = 0%nat.
Proof.
  pose proof (db_loader_unknown_dataset orders_env "/data" []
                "postgresql://u:p@h:5432/db" "orders" 10000 empty_world) as H.
  cbv zeta in H. destruct H as [_ H]; [intros []|].
  rewrite (H "/data/orders/part-00000" []) by (vm_compute; reflexivity).
  split; reflexivity.
Defined.
